(** * The cycle-stepped emulator driver of csrc/emulator.cc

    A shallow embedding of [MagicTracker] and of the simulation loop of
    [main], with the hardware model, the memory backends and the host
    transport taken as oracles that are read once per cycle. *)

From Stdlib Require Import ZArith List Bool Lia.
From Stdlib Require String Ascii.
Import ListNotations.
Import String.StringSyntax Ascii.AsciiSyntax.
Delimit Scope string_scope with string.
Delimit Scope char_scope with char.
Open Scope Z_scope.

(** ** Operations with a precondition

    [boost::circular_buffer::operator[]] requires [index < size()].  A call
    outside that range is recorded as a fault instead of being given a
    value. *)

Inductive fault : Type :=
| OutOfRange (index size : nat).

Inductive result (A : Type) : Type :=
| Ok (a : A)
| Fault (f : fault).

Arguments Ok {A} a.
Arguments Fault {A} f.

Definition bind {A B : Type} (m : result A) (k : A -> result B) : result B :=
  match m with
  | Ok a => k a
  | Fault f => Fault f
  end.

Notation "x <- m ;; k" := (bind m (fun x => k))
  (at level 61, m at next level, right associativity).

Notation "' pat <- m ;; k" :=
  (bind m (fun x => match x with pat => k end))
  (at level 61, pat pattern, m at next level, right associativity).

(** [a && b] of C++ on operands that may fault: [b] is evaluated only when
    [a] is true. *)
Definition and_then (a b : result bool) : result bool :=
  x <- a ;; if x then b else Ok false.

Infix "&&&" := and_then (at level 40, left associativity).

Definition is_ok {A : Type} (m : result A) : bool :=
  match m with Ok _ => true | Fault _ => false end.

(** ** boost::circular_buffer<unsigned long> *)

Module CircularBuffer.

(** Elements are listed oldest first: [items] at position 0 is
    [front()], the last one is [back()]. *)
Record t : Type := mk { capacity : nat; items : list Z }.

Definition make (cap : nat) : t := mk cap [].

Definition size (b : t) : nat := length (items b).

Definition empty (b : t) : bool := Nat.eqb (size b) 0.

Definition full (b : t) : bool := Nat.eqb (size b) (capacity b).

(** Precondition [!empty()]; the caller tests [empty()] first. *)
Definition back (b : t) : Z := last (items b) 0.

(** A full buffer overwrites its oldest element. *)
Definition push_back (x : Z) (b : t) : t :=
  if full b then
    match items b with
    | [] => b
    | _ :: rest => mk (capacity b) (rest ++ [x])
    end
  else mk (capacity b) (items b ++ [x]).

(** [operator[]], precondition [index < size()]. *)
Definition at_ (b : t) (index : nat) : result Z :=
  match nth_error (items b) index with
  | Some v => Ok v
  | None => Fault (OutOfRange index (size b))
  end.

End CircularBuffer.

Module CB := CircularBuffer.

(** ** The magic sequences *)

Definition MAGIC_LEN : nat := 4.

Definition MAGIC_START0 : Z := 0x04550513.
Definition MAGIC_START1 : Z := 0x04d50513.
Definition MAGIC_START2 : Z := 0x04250513.
Definition MAGIC_START3 : Z := 0x04550513.

Definition MAGIC_STOP0 : Z := 0x04350513.
Definition MAGIC_STOP1 : Z := 0x04f50513.
Definition MAGIC_STOP2 : Z := 0x05350513.
Definition MAGIC_STOP3 : Z := 0x04d50513.

(** ** MagicTracker *)

Record MagicTracker : Type := mkTracker {
  insts : CB.t;
  needs_reset : bool;
  needs_emit_cycle_count : bool
}.

(** The constructor. *)
Definition new_tracker : MagicTracker :=
  mkTracker (CB.make MAGIC_LEN) false false.

(** [insts[i] == c] *)
Definition slot_is (w : CB.t) (i : nat) (c : Z) : result bool :=
  v <- CB.at_ w i ;; Ok (Z.eqb v c).

Definition at_start (w : CB.t) : result bool :=
  slot_is w 0 MAGIC_START0 &&& slot_is w 1 MAGIC_START1
  &&& slot_is w 2 MAGIC_START2 &&& slot_is w 3 MAGIC_START3.

Definition at_stop (w : CB.t) : result bool :=
  slot_is w 0 MAGIC_STOP0 &&& slot_is w 1 MAGIC_STOP1
  &&& slot_is w 2 MAGIC_STOP2 &&& slot_is w 3 MAGIC_STOP3.

(** The guard of [nextInst]: the instruction is pushed when the buffer is
    empty or the instruction differs from the one pushed last.  [inst] is
    the value of [inst.to_ulong()]. *)
Definition is_new (inst : Z) (t : MagicTracker) : bool :=
  CB.empty (insts t) || negb (Z.eqb inst (CB.back (insts t))).

Definition nextInst (inst : Z) (t : MagicTracker) : result MagicTracker :=
  if is_new inst t then
    let w := CB.push_back inst (insts t) in
    s <- at_start w ;;
    let nr := if s then true else needs_reset t in
    p <- at_stop w ;;
    let ne := if p then true else needs_emit_cycle_count t in
    Ok (mkTracker w nr ne)
  else Ok t.

Definition hitStart (t : MagicTracker) : bool * MagicTracker :=
  if needs_reset t then
    (true, mkTracker (insts t) false (needs_emit_cycle_count t))
  else (false, t).

Definition hitStop (t : MagicTracker) : bool * MagicTracker :=
  if needs_emit_cycle_count t then
    (true, mkTracker (insts t) (needs_reset t) false)
  else (false, t).

(** Successive calls of [nextInst], one per observation. *)
Fixpoint feed (obs : list Z) (t : MagicTracker) : result MagicTracker :=
  match obs with
  | [] => Ok t
  | i :: rest => t' <- nextInst i t ;; feed rest t'
  end.


(** ** The simulation loop of [main]

    [uint64_t] locals are integers in [0, 2^64); the increment wraps. *)

Definition wrap64 (z : Z) : Z := z mod 2 ^ 64.

(** What the command line fixes before the loop starts.  [vcd] is true when
    a trace output was named; [N_MEM_CHANNELS] comes from the generated
    headers. *)
Record Config : Type := mkConfig {
  vcd : bool;
  log : bool;
  print_cycles : bool;
  start : Z;
  max_cycles_arg : Z;
  N_MEM_CHANNELS : nat
}.

(** The locals of [main] that live across iterations, with the two
    function-local statics of the host exchange. *)
Record State : Type := mkState {
  max_cycles : Z;
  trace_count : Z;
  ret : Z;
  tracker : MagicTracker;
  htif_in_valid : bool;
  htif_in_bits : Z
}.

(** The state at the loop head: the locals as initialised and as the
    options left them, the statics zero-initialised. *)
Definition initial (cfg : Config) : State :=
  mkState (max_cycles_arg cfg) 0 0 new_tracker false 0.

(** What the collaborators answer during one iteration: the transport
    ([htif->done()] at the loop head, the result of [recv_nonblocking] and
    the value it stores, if any), the hardware model (whether [clock_lo]
    throws, and the wires read after it) and [tile.getInst()]. *)
Record CycleIn : Type := mkCycleIn {
  htif_done : bool;
  clock_lo_throws : bool;
  host_clk_edge : bool;
  host_in_ready : bool;
  host_out_valid : bool;
  host_out_bits : Z;
  recv_result : bool;
  recv_stored : option Z;
  getInst : Z
}.

(** The calls and writes an iteration makes, in program order.  [HostIn]
    carries the pair assigned to [Top__io_host_in_valid] and
    [Top__io_host_in_bits] (the literal [LIT<64>(htif_in_bits)]);
    [CycleCountNotice] carries the argument handed to [printf];
    [Dump] the cycle passed to [tile.dump]. *)
Inductive event : Type :=
| MemDrive (chan : nat)
| ClockLo
| ErrorMessage
| MemTick (chan : nat)
| Recv
| HostIn (valid : bool) (bits : Z)
| Send (bits : Z)
| HostOutReady
| Print
| ResetNotice
| CycleCountNotice (count : Z)
| Dump (cycle : Z)
| ClockHi.

Definition set_failure (s : State) : State :=
  mkState (trace_count s) (trace_count s) 1 (tracker s)
          (htif_in_valid s) (htif_in_bits s).

Definition set_htif_in (v : bool) (b : Z) (s : State) : State :=
  mkState (max_cycles s) (trace_count s) (ret s) (tracker s) v b.

Definition set_tracker (t : MagicTracker) (s : State) : State :=
  mkState (max_cycles s) (trace_count s) (ret s) t
          (htif_in_valid s) (htif_in_bits s).

Definition set_trace_count (c : Z) (s : State) : State :=
  mkState (max_cycles s) c (ret s) (tracker s)
          (htif_in_valid s) (htif_in_bits s).

Definition channels (cfg : Config) : list nat := seq 0 (N_MEM_CHANNELS cfg).

(** The loop condition. *)
Definition loop_cond (inp : CycleIn) (s : State) : bool :=
  negb (htif_done inp) && (trace_count s <? max_cycles s) && (ret s =? 0).

(** Response wires of every channel, driven from the backend. *)
Definition drive_memory (cfg : Config) : list event :=
  map MemDrive (channels cfg).

(** [try { tile.clock_lo(LIT<1>(0)); } catch (std::runtime_error& e)]:
    the handler sets the budget to the current count and [ret] to 1, and
    prints the message. *)
Definition eval_phase (inp : CycleIn) (s : State) : State * list event :=
  if clock_lo_throws inp then (set_failure s, [ClockLo; ErrorMessage])
  else (s, [ClockLo]).

Definition tick_memory (cfg : Config) : list event :=
  map MemTick (channels cfg).

(** The block guarded by [Top__io_host_clk_edge]. *)
Definition host_exchange (inp : CycleIn) (s : State) : State * list event :=
  if host_clk_edge inp then
    let '(s1, ev_recv) :=
      if host_in_ready inp || negb (htif_in_valid s) then
        (set_htif_in (recv_result inp)
           (match recv_stored inp with
            | Some b => b
            | None => htif_in_bits s
            end) s,
         [Recv])
      else (s, [])
    in
    (s1,
     ev_recv ++ [HostIn (htif_in_valid s1) (htif_in_bits s1)]
       ++ (if host_out_valid inp then [Send (host_out_bits inp)] else [])
       ++ [HostOutReady])
  else (s, []).

Definition print_phase (cfg : Config) (s : State) : list event :=
  if log cfg && (start cfg <=? trace_count s) then [Print] else [].


(** [tracker.nextInst(tile.getInst())], then the two queries. *)
Definition observe_phase (inp : CycleIn) (s : State)
  : result (State * list event) :=
  t1 <- nextInst (getInst inp) (tracker s) ;;
  let '(started, t2) := hitStart t1 in
  let s1 := if started then set_trace_count 0 s else s in
  let ev_start := if started then [ResetNotice] else [] in
  let '(stopped, t3) := hitStop t2 in
  let ev_stop :=
    if stopped then [CycleCountNotice (trace_count s1)] else [] in
  Ok (set_tracker t3 s1, ev_start ++ ev_stop).

Definition dump_phase (cfg : Config) (s : State) : list event :=
  if vcd cfg && ((trace_count s =? 0) || (start cfg <=? trace_count s))
  then [Dump (trace_count s)] else [].

(** [tile.clock_hi(LIT<1>(0)); trace_count++;] *)
Definition commit_phase (s : State) : State * list event :=
  (set_trace_count (wrap64 (trace_count s + 1)) s, [ClockHi]).

(** One iteration of the loop body. *)
Definition cycle (cfg : Config) (inp : CycleIn) (s : State)
  : result (State * list event) :=
  let ev_drive := drive_memory cfg in
  let '(s1, ev_eval) := eval_phase inp s in
  let ev_tick := tick_memory cfg in
  let '(s2, ev_host) := host_exchange inp s1 in
  let ev_print := print_phase cfg s2 in
  '(s3, ev_obs) <- observe_phase inp s2 ;;
  let ev_dump := dump_phase cfg s3 in
  let '(s4, ev_commit) := commit_phase s3 in
  Ok (s4, ev_drive ++ ev_eval ++ ev_tick ++ ev_host ++ ev_print
            ++ ev_obs ++ ev_dump ++ ev_commit).

(** How the loop was left. *)
Record Exit : Type := mkExit {
  iterations : nat;
  final : State;
  trace : list event
}.

(** The [while] loop.  [env n] holds the answers of the collaborators in
    iteration [n]; [None] means that [fuel] iterations did not reach the
    exit. *)
Fixpoint loop (cfg : Config) (env : nat -> CycleIn) (fuel : nat)
    (n : nat) (s : State) (tr : list event) : result (option Exit) :=
  if loop_cond (env n) s then
    match fuel with
    | O => Ok None
    | S fuel' =>
        '(s', ev) <- cycle cfg (env n) s ;;
        loop cfg env fuel' (S n) s' (tr ++ ev)
    end
  else Ok (Some (mkExit n s tr)).

(** The messages printed after the loop. *)
Inductive report : Type :=
| FailedCode (code : Z) (cycles : Z)
| FailedTimeout (cycles : Z)
| Completed (cycles : Z)
| Silent.

(** The code after the loop; [exit_code] is [htif->exit_code()].  The
    first component is the value [main] returns. *)
Definition finish (cfg : Config) (exit_code : Z) (s : State) : Z * report :=
  if negb (exit_code =? 0) then
    (exit_code, FailedCode exit_code (trace_count s))
  else if trace_count s =? max_cycles s then
    (2, FailedTimeout (trace_count s))
  else if log cfg || print_cycles cfg then
    (ret s, Completed (trace_count s))
  else (ret s, Silent).

Record Outcome : Type := mkOutcome {
  status : Z;
  message : report;
  at_exit : Exit
}.

(** [main] from the loop on. *)
Definition main (cfg : Config) (env : nat -> CycleIn) (exit_code : Z)
    (fuel : nat) : result (option Outcome) :=
  r <- loop cfg env fuel 0 (initial cfg) [] ;;
  match r with
  | None => Ok None
  | Some e =>
      let '(st, msg) := finish cfg exit_code (final e) in
      Ok (Some (mkOutcome st msg e))
  end.

(** The tracker side of one loop iteration: [nextInst] followed by
    [hitStart] and [hitStop].  The booleans tell whether a start and a stop
    event were consumed. *)
Definition watch (inst : Z) (t : MagicTracker)
  : result (bool * bool * MagicTracker) :=
  t1 <- nextInst inst t ;;
  let '(started, t2) := hitStart t1 in
  let '(stopped, t3) := hitStop t2 in
  Ok (started, stopped, t3).

(** [watch] over successive cycles, counting the events consumed. *)
Fixpoint watch_all (obs : list Z) (t : MagicTracker)
  : result (nat * nat * MagicTracker) :=
  match obs with
  | [] => Ok (O, O, t)
  | i :: rest =>
      '(a, b, t1) <- watch i t ;;
      '(na, nb, t2) <- watch_all rest t1 ;;
      Ok (((if a : bool then 1 else 0) + na)%nat,
          ((if b : bool then 1 else 0) + nb)%nat, t2)
  end.

(** The tracker at the head of iteration [n], when the loop body has run
    [n] times on the instructions of [env]. *)
Fixpoint tracker_at (env : nat -> CycleIn) (n : nat) : result MagicTracker :=
  match n with
  | O => Ok new_tracker
  | S m =>
      t <- tracker_at env m ;;
      '(_, _, t') <- watch (getInst (env m)) t ;;
      Ok t'
  end.

(** Whether iteration [n] consumes a start event, a stop event. *)
Definition start_at (env : nat -> CycleIn) (n : nat) : result bool :=
  t <- tracker_at env n ;;
  '(a, _, _) <- watch (getInst (env n)) t ;;
  Ok a.

Definition stop_at (env : nat -> CycleIn) (n : nat) : result bool :=
  t <- tracker_at env n ;;
  '(_, b, _) <- watch (getInst (env n)) t ;;
  Ok b.

(** [k] iterations of the loop body from iteration [n] on, without the
    loop condition. *)
Fixpoint steps (cfg : Config) (env : nat -> CycleIn) (k : nat)
    (n : nat) (s : State) (tr : list event) : result (State * list event) :=
  match k with
  | O => Ok (s, tr)
  | S k' =>
      '(s', ev) <- cycle cfg (env n) s ;;
      steps cfg env k' (S n) s' (tr ++ ev)
  end.

(** ** Shapes used in the statements *)

Definition start_pattern : list Z :=
  [MAGIC_START0; MAGIC_START1; MAGIC_START2; MAGIC_START3].

Definition stop_pattern : list Z :=
  [MAGIC_STOP0; MAGIC_STOP1; MAGIC_STOP2; MAGIC_STOP3].

(** The class invariant of the window: capacity [MAGIC_LEN], never more
    entries than that. *)
Definition wf (t : MagicTracker) : Prop :=
  CB.capacity (insts t) = MAGIC_LEN /\ (CB.size (insts t) <= MAGIC_LEN)%nat.

(** No event is waiting to be consumed. *)
Definition idle (t : MagicTracker) : Prop :=
  needs_reset t = false /\ needs_emit_cycle_count t = false.

(** A window on which every comparison of [nextInst] stays in range: it is
    full, or its oldest entry is the first word of neither sequence. *)
Definition primed (t : MagicTracker) : Prop :=
  CB.size (insts t) = MAGIC_LEN \/
  exists x rest, CB.items (insts t) = x :: rest /\
                 x <> MAGIC_START0 /\ x <> MAGIC_STOP0.

(** The events of the steps that follow [clock_lo] in an iteration and
    use what the hardware model holds then: memory tick, host exchange,
    trace dump, sequential commit. *)
Definition after_eval (e : event) : bool :=
  match e with
  | MemTick _ | Recv | HostIn _ _ | Send _ | HostOutReady
  | Dump _ | ClockHi => true
  | _ => false
  end.

Definition is_recv (e : event) : bool :=
  match e with Recv => true | _ => false end.

Definition is_reset (e : event) : bool :=
  match e with ResetNotice => true | _ => false end.


Definition is_dump (e : event) : bool :=
  match e with Dump _ => true | _ => false end.

Definition is_host_in (e : event) : bool :=
  match e with HostIn _ _ => true | _ => false end.

Definition is_error (e : event) : bool :=
  match e with ErrorMessage => true | _ => false end.

(** The same answers of the collaborators, with a [clock_lo] that
    returns normally. *)
Definition without_throw (inp : CycleIn) : CycleIn :=
  mkCycleIn (htif_done inp) false (host_clk_edge inp) (host_in_ready inp)
            (host_out_valid inp) (host_out_bits inp) (recv_result inp)
            (recv_stored inp) (getInst inp).

(** The number of iterations among [n, n + k) in which the hardware model
    asserts the host clock edge. *)
Definition gated_cycles (env : nat -> CycleIn) (n k : nat) : nat :=
  length (filter (fun j => host_clk_edge (env j)) (seq n k)).

(** ** Sample runs *)

(** An iteration in which nothing happens but the retirement of [inst]. *)
Definition quiet_cycle (inst : Z) : CycleIn :=
  mkCycleIn false false false false false 0 false None inst.

(** An iteration whose evaluation fails while a frame arrives and one is
    sent. *)
Definition failing_cycle : CycleIn :=
  mkCycleIn false true true false true 7 true (Some 5) 0x13.

(** A gated iteration that finds the hardware not ready for input. *)
Definition stalled_cycle : CycleIn :=
  mkCycleIn false false true false false 0 true (Some 9) 0x13.

(** The answers listed in [l], then [d] for ever. *)
Definition env_of (l : list CycleIn) (d : CycleIn) : nat -> CycleIn :=
  fun n => nth n l d.

Definition nop : Z := 0x13.

(** Tracing on from cycle 10, one memory channel. *)
Definition sample_cfg (budget : Z) : Config :=
  mkConfig true false false 10 budget 1.

(** A start sequence retiring in iterations 1 to 4. *)
Definition start_env : nat -> CycleIn :=
  env_of (map quiet_cycle
            [nop; MAGIC_START0; MAGIC_START1; MAGIC_START2; MAGIC_START3])
         (quiet_cycle nop).


(** ** The history a window stands for *)

(** The last [n] elements. *)
Definition lastn {A : Type} (n : nat) (l : list A) : list A :=
  skipn (length l - n) l.

(** [insts.back()] when there is one. *)
Definition back_opt (t : MagicTracker) : option Z :=
  if CB.empty (insts t) then None else Some (CB.back (insts t)).

(** The observations with each run of equal consecutive values kept once;
    [prev] is the value observed before the first one, if any. *)
Fixpoint collapse (prev : option Z) (obs : list Z) : list Z :=
  match obs with
  | [] => []
  | x :: rest =>
      match prev with
      | Some p =>
          if Z.eqb x p then collapse prev rest
          else x :: collapse (Some x) rest
      | None => x :: collapse (Some x) rest
      end
  end.

(** ** More views of the trace *)

Definition is_clock_lo (e : event) : bool :=
  match e with ClockLo => true | _ => false end.

Definition is_clock_hi (e : event) : bool :=
  match e with ClockHi => true | _ => false end.

Definition is_mem_drive (e : event) : bool :=
  match e with MemDrive _ => true | _ => false end.

Definition is_mem_tick (e : event) : bool :=
  match e with MemTick _ => true | _ => false end.

Definition is_send (e : event) : bool :=
  match e with Send _ => true | _ => false end.

Definition is_out_ready (e : event) : bool :=
  match e with HostOutReady => true | _ => false end.

(** The drives and the ticks of one channel. *)
Definition is_drive_of (i : nat) (e : event) : bool :=
  match e with MemDrive j => Nat.eqb i j | _ => false end.

Definition is_tick_of (i : nat) (e : event) : bool :=
  match e with MemTick j => Nat.eqb i j | _ => false end.


(** The events of the block guarded by the host clock edge. *)
Definition is_host (e : event) : bool :=
  match e with
  | Recv | HostIn _ _ | Send _ | HostOutReady => true
  | _ => false
  end.


(** The frames the hardware model offers in the iterations [n, n + k):
    those of the gated iterations in which it asserts outbound validity. *)
Definition offered (env : nat -> CycleIn) (n k : nat) : list event :=
  flat_map
    (fun j =>
       if host_clk_edge (env j) && host_out_valid (env j)
       then [Send (host_out_bits (env j))] else [])
    (seq n k).

(** ** The command line

    [unsigned] values are integers in [0, 2^32). *)

Definition wrap32 (z : Z) : Z := z mod 2 ^ 32.

(** The locals of [main] that the options set. *)
Record Options : Type := mkOptions {
  opt_random_seed : Z;
  opt_max_cycles : Z;
  opt_start : Z;
  opt_vcd : option String.string;
  opt_loadmem : option String.string;
  opt_dramsim2 : bool;
  opt_log : bool;
  opt_print_cycles : bool;
  opt_memsz_mb : Z
}.

(** The initial values: [seed] is [time(NULL) ^ getpid()], [memsz_mb] is
    [MEM_SIZE / (1024*1024)], the budget is [(uint64_t)-1]. *)
Definition default_options (seed memsz_mb : Z) : Options :=
  mkOptions seed (2 ^ 64 - 1) 0 None None false false false memsz_mb.

(** [arg.substr(0, len)] *)
Definition substr (len : nat) (arg : String.string) : String.string :=
  String.substring 0 len arg.

(** [argv[i] + n], for an argument of at least [n] characters. *)
Definition from (n : nat) (arg : String.string) : String.string :=
  String.substring n (String.length arg - n) arg.

Definition set_vcd (p : String.string) (o : Options) : Options :=
  mkOptions (opt_random_seed o) (opt_max_cycles o) (opt_start o) (Some p)
            (opt_loadmem o) (opt_dramsim2 o) (opt_log o)
            (opt_print_cycles o) (opt_memsz_mb o).

Definition set_memsz_mb (v : Z) (o : Options) : Options :=
  mkOptions (opt_random_seed o) (opt_max_cycles o) (opt_start o) (opt_vcd o)
            (opt_loadmem o) (opt_dramsim2 o) (opt_log o)
            (opt_print_cycles o) v.

Definition set_random_seed (v : Z) (o : Options) : Options :=
  mkOptions v (opt_max_cycles o) (opt_start o) (opt_vcd o)
            (opt_loadmem o) (opt_dramsim2 o) (opt_log o)
            (opt_print_cycles o) (opt_memsz_mb o).

Definition set_dramsim2 (o : Options) : Options :=
  mkOptions (opt_random_seed o) (opt_max_cycles o) (opt_start o) (opt_vcd o)
            (opt_loadmem o) true (opt_log o)
            (opt_print_cycles o) (opt_memsz_mb o).

Definition set_log (o : Options) : Options :=
  mkOptions (opt_random_seed o) (opt_max_cycles o) (opt_start o) (opt_vcd o)
            (opt_loadmem o) (opt_dramsim2 o) true
            (opt_print_cycles o) (opt_memsz_mb o).

Definition set_max_cycles (v : Z) (o : Options) : Options :=
  mkOptions (opt_random_seed o) v (opt_start o) (opt_vcd o)
            (opt_loadmem o) (opt_dramsim2 o) (opt_log o)
            (opt_print_cycles o) (opt_memsz_mb o).

Definition set_loadmem (p : String.string) (o : Options) : Options :=
  mkOptions (opt_random_seed o) (opt_max_cycles o) (opt_start o) (opt_vcd o)
            (Some p) (opt_dramsim2 o) (opt_log o)
            (opt_print_cycles o) (opt_memsz_mb o).

Definition set_start (v : Z) (o : Options) : Options :=
  mkOptions (opt_random_seed o) (opt_max_cycles o) v (opt_vcd o)
            (opt_loadmem o) (opt_dramsim2 o) (opt_log o)
            (opt_print_cycles o) (opt_memsz_mb o).

Definition set_print_cycles (o : Options) : Options :=
  mkOptions (opt_random_seed o) (opt_max_cycles o) (opt_start o) (opt_vcd o)
            (opt_loadmem o) (opt_dramsim2 o) (opt_log o)
            true (opt_memsz_mb o).

Section CommandLine.

(** The C library's conversions, as integers of their result types. *)
Variables atoll atoi : String.string -> Z.

(** The body of the loop over [argv]. *)
Definition parse_arg (arg : String.string) (o : Options) : Options :=
  if String.eqb (substr 2 arg) "-v" then set_vcd (from 2 arg) o
  else if String.eqb (substr 9 arg) "+memsize=" then
    set_memsz_mb (wrap64 (atoll (from 9 arg))) o
  else if String.eqb (substr 2 arg) "-s" then
    set_random_seed (wrap32 (atoi (from 2 arg))) o
  else if String.eqb arg "+dramsim" then set_dramsim2 o
  else if String.eqb arg "+verbose" then set_log o
  else if String.eqb (substr 12 arg) "+max-cycles=" then
    set_max_cycles (wrap64 (atoll (from 12 arg))) o
  else if String.eqb (substr 9 arg) "+loadmem=" then
    set_loadmem (from 9 arg) o
  else if String.eqb (substr 7 arg) "+start=" then
    set_start (wrap64 (atoll (from 7 arg))) o
  else if String.eqb (substr 12 arg) "+cycle-count" then set_print_cycles o
  else o.

(** The loop over [argv[1]] to [argv[argc - 1]]. *)
Definition parse_args (args : list String.string) (o : Options) : Options :=
  fold_left (fun acc arg => parse_arg arg acc) args o.

End CommandLine.

(** What the loop reads of the options. *)
Definition config_of (o : Options) (channels : nat) : Config :=
  mkConfig (match opt_vcd o with Some _ => true | None => false end)
           (opt_log o) (opt_print_cycles o) (opt_start o)
           (opt_max_cycles o) channels.

(** ** [main] around the loop *)

(** What the build and the collaborators fix for a run: whether [fopen]
    succeeds, which channel's [init] throws [std::bad_alloc], the width of
    the host input wire and [val_n_bits()], the host clock edge and a throw
    of [clock_lo] in each reset cycle, the answers during the loop and
    [htif->exit_code()]. *)
Record Platform : Type := mkPlatform {
  fopen_ok : bool;
  alloc_fails : nat -> bool;
  htif_bits : Z;
  val_n_bits : Z;
  reset_edge : nat -> bool;
  reset_throws : nat -> bool;
  loop_env : nat -> CycleIn;
  htif_exit_code : Z
}.

(** The calls of [main], in program order. *)
Inductive step : Type :=
| VcdHeader
| TileInit (seed : Z)
| MemInit (chan : nat) (dramsim2 : bool) (bytes : Z)
| AllocMessage (bytes mb : Z)
| LoadMem (path : String.string)
| HtifNew
| ResetCycle
| Cycle (e : event)
| VcdClose
| Report (r : report)
| HtifDelete.

(** How the process ends: [return] from [main], [exit], an assertion or
    an uncaught exception, or not within the fuel given.  An out-of-range
    read of the tracker ends the run inside an iteration: a container that
    checks its precondition aborts there, and without the check the rest is
    undefined. *)
Inductive ending : Type :=
| Returned (status : Z)
| ExitCalled (status : Z)
| Aborted
| OutOfFuel
| OutOfRangeRead (f : fault).

(** [memsz_mb*1024*1024], in [uint64_t]. *)
Definition requested_bytes (memsz_mb : Z) : Z :=
  wrap64 (memsz_mb * 1024 * 1024).

(** [memsz_mb*1024*1024 / N_MEM_CHANNELS] *)
Definition channel_bytes (memsz_mb : Z) (channels : nat) : Z :=
  requested_bytes memsz_mb / Z.of_nat channels.

(** The loop that creates and initialises the memories; the boolean tells
    whether every [init] returned. *)
Fixpoint init_memory (fails : nat -> bool) (dramsim2 : bool)
    (memsz_mb : Z) (channels : nat) (todo : list nat) : bool * list step :=
  match todo with
  | [] => (true, [])
  | i :: rest =>
      let call := MemInit i dramsim2 (channel_bytes memsz_mb channels) in
      if fails i then
        (false, [call; AllocMessage (requested_bytes memsz_mb) memsz_mb])
      else
        let '(ok, ev) := init_memory fails dramsim2 memsz_mb channels rest in
        (ok, call :: ev)
  end.

Inductive reset_end : Type :=
| ResetDone (cycles : nat)
| ResetThrew (cycles : nat)
| ResetOutOfFuel.

(** [for (int i = 0; i < 3; i += tile.Top__io_host_clk_edge.to_bool())]
    around [clock_lo(LIT<1>(1)); clock_hi(LIT<1>(1));].  [n] counts the
    cycles run so far; the edge is read after the cycle. *)
Fixpoint reset_loop (edge throws : nat -> bool) (fuel : nat)
    (i : Z) (n : nat) : reset_end :=
  if i <? 3 then
    match fuel with
    | O => ResetOutOfFuel
    | S fuel' =>
        if throws n then ResetThrew n
        else reset_loop edge throws fuel'
               (i + (if edge n then 1 else 0)) (S n)
    end
  else ResetDone n.

(** The edges seen in the [k] reset cycles from cycle [n] on. *)
Definition count_edges (edge : nat -> bool) (n k : nat) : nat :=
  length (filter edge (seq n k)).

(** [vcdfile = strcmp(vcd, "-") == 0 ? stdout : fopen(vcd, "w");
    assert(vcdfile);] holds, or no trace file was asked for. *)
Definition vcd_opened (P : Platform) (o : Options) : bool :=
  match opt_vcd o with
  | Some p => String.eqb p "-" || fopen_ok P
  | None => true
  end.

(** The calls of an iteration that come before [tracker.nextInst]
    (lines 259 to 323). *)
Definition before_observe (cfg : Config) (inp : CycleIn) (s : State)
  : list event :=
  let '(s1, ev_eval) := eval_phase inp s in
  let '(s2, ev_host) := host_exchange inp s1 in
  drive_memory cfg ++ ev_eval ++ tick_memory cfg ++ ev_host
    ++ print_phase cfg s2.

(** The calls made by the [while] loop, however it ends: the iterations
    that completed and, when the tracker reads out of range, the part of
    the last iteration that came before that. *)
Fixpoint loop_log (cfg : Config) (env : nat -> CycleIn) (fuel : nat)
    (n : nat) (s : State) (tr : list event) : list event :=
  if loop_cond (env n) s then
    match fuel with
    | O => tr
    | S fuel' =>
        match cycle cfg (env n) s with
        | Ok (s', ev) => loop_log cfg env fuel' (S n) s' (tr ++ ev)
        | Fault _ => tr ++ before_observe cfg (env n) s
        end
    end
  else tr.

(** [main] after the options are read, with [assert] compiled in.  The
    second component lists the calls made, in program order. *)
Definition program (P : Platform) (o : Options) (channels : nat)
    (fuel_reset fuel_loop : nat) : ending * list step :=
  let cfg := config_of o channels in
  if negb (vcd_opened P o) then (Aborted, [])
  else
    let ev_vcd := if vcd cfg then [VcdHeader] else [] in
    let ev_tile := [TileInit (opt_random_seed o)] in
    let '(ok, ev_mem) :=
      init_memory (alloc_fails P) (opt_dramsim2 o) (opt_memsz_mb o)
                  channels (seq 0 channels) in
    if negb ok then (ExitCalled (-1), ev_vcd ++ ev_tile ++ ev_mem)
    else
      let ev_load :=
        match opt_loadmem o with Some p => [LoadMem p] | None => [] end in
      let ev_setup := ev_vcd ++ ev_tile ++ ev_mem ++ ev_load ++ [HtifNew] in
      if negb ((htif_bits P mod 8 =? 0) && (htif_bits P <=? val_n_bits P))
      then (Aborted, ev_setup)
      else
        match reset_loop (reset_edge P) (reset_throws P) fuel_reset 0 0 with
        | ResetOutOfFuel =>
            (OutOfFuel, ev_setup ++ repeat ResetCycle fuel_reset)
        | ResetThrew n => (Aborted, ev_setup ++ repeat ResetCycle n)
        | ResetDone n =>
            let ev_reset := ev_setup ++ repeat ResetCycle n in
            let ev_loop :=
              map Cycle
                (loop_log cfg (loop_env P) fuel_loop 0 (initial cfg) []) in
            match loop cfg (loop_env P) fuel_loop 0 (initial cfg) [] with
            | Fault f => (OutOfRangeRead f, ev_reset ++ ev_loop)
            | Ok None => (OutOfFuel, ev_reset ++ ev_loop)
            | Ok (Some e) =>
                let '(st, msg) :=
                  finish cfg (htif_exit_code P) (final e) in
                (Returned st,
                 ev_reset ++ map Cycle (trace e)
                   ++ (if vcd cfg then [VcdClose] else [])
                   ++ match msg with Silent => [] | _ => [Report msg] end
                   ++ [HtifDelete])
            end
        end.


Definition is_reset_cycle (x : step) : bool :=
  match x with ResetCycle => true | _ => false end.

Definition is_mem_init (x : step) : bool :=
  match x with MemInit _ _ _ => true | _ => false end.

(** The steps that need the memories in place. *)
Definition after_setup (x : step) : bool :=
  match x with
  | LoadMem _ | HtifNew | ResetCycle | Cycle _ | VcdClose | Report _
  | HtifDelete => true
  | _ => false
  end.


(** The steps of the main loop and after it. *)
Definition after_reset (x : step) : bool :=
  match x with
  | Cycle _ | VcdClose | Report _ | HtifDelete => true
  | _ => false
  end.

(** A trace file, a budget of three cycles, two MiB of memory. *)
Definition sample_options : Options :=
  set_max_cycles 3 (set_vcd "out.vcd"%string (default_options 1 2)).

(** A platform whose host clock has an edge every second reset cycle and
    whose target never finishes; [fails] tells which memories cannot be
    allocated. *)
Definition sample_platform (fails : nat -> bool) : Platform :=
  mkPlatform true fails 16 64 Nat.odd (fun _ => false)
             (fun _ => quiet_cycle nop) 0.

(** ** Facts about the window *)

Lemma push_back_nonempty_back x b :
  CB.items (CB.push_back x b) <> [] -> CB.back (CB.push_back x b) = x.
Proof.
  unfold CB.back, CB.push_back.
  destruct (CB.full b); [destruct (CB.items b) eqn:E|]; simpl.
  - rewrite E. congruence.
  - intros _. apply last_last.
  - intros _. apply last_last.
Qed.

Lemma at_ok_nonempty w i v : CB.at_ w i = Ok v -> CB.items w <> [].
Proof.
  unfold CB.at_. destruct (CB.items w); [destruct i|]; simpl; congruence.
Qed.

Lemma at_start_ok_nonempty w r : at_start w = Ok r -> CB.items w <> [].
Proof.
  unfold at_start, and_then, slot_is, bind.
  destruct (CB.at_ w 0) eqn:E; [|congruence].
  intros _. eapply at_ok_nonempty; eauto.
Qed.

Lemma nextInst_old inst t : is_new inst t = false -> nextInst inst t = Ok t.
Proof. unfold nextInst. now intros ->. Qed.

Lemma nextInst_then_old inst t t1 :
  nextInst inst t = Ok t1 -> is_new inst t1 = false.
Proof.
  unfold nextInst. destruct (is_new inst t) eqn:E.
  - unfold bind. destruct (at_start _) eqn:Es; [|congruence].
    destruct (at_stop _); [|congruence].
    intros H; injection H as <-.
    apply at_start_ok_nonempty in Es.
    unfold is_new; simpl.
    rewrite (push_back_nonempty_back _ _ Es), Z.eqb_refl.
    unfold CB.empty, CB.size. destruct (CB.items _); [congruence|reflexivity].
  - intros H; injection H as <-. exact E.
Qed.


Ltac unfold_match :=
  unfold at_start, at_stop, and_then, slot_is, bind, CB.at_.

Lemma at_start_full w a b c d rest :
  CB.items w = a :: b :: c :: d :: rest ->
  at_start w = Ok ((a =? MAGIC_START0) && (b =? MAGIC_START1)
                   && (c =? MAGIC_START2) && (d =? MAGIC_START3)).
Proof.
  intros E. unfold_match. rewrite E. cbn [nth_error].
  destruct (a =? _), (b =? _), (c =? _), (d =? _); reflexivity.
Qed.

Lemma at_stop_full w a b c d rest :
  CB.items w = a :: b :: c :: d :: rest ->
  at_stop w = Ok ((a =? MAGIC_STOP0) && (b =? MAGIC_STOP1)
                  && (c =? MAGIC_STOP2) && (d =? MAGIC_STOP3)).
Proof.
  intros E. unfold_match. rewrite E. cbn [nth_error].
  destruct (a =? _), (b =? _), (c =? _), (d =? _); reflexivity.
Qed.

Lemma at_start_other w x rest :
  CB.items w = x :: rest -> x <> MAGIC_START0 -> at_start w = Ok false.
Proof.
  intros E Hx. unfold_match. rewrite E. cbn [nth_error].
  apply Z.eqb_neq in Hx. now rewrite Hx.
Qed.

Lemma at_stop_other w x rest :
  CB.items w = x :: rest -> x <> MAGIC_STOP0 -> at_stop w = Ok false.
Proof.
  intros E Hx. unfold_match. rewrite E. cbn [nth_error].
  apply Z.eqb_neq in Hx. now rewrite Hx.
Qed.

Lemma at_start_true w :
  at_start w = Ok true -> exists rest, CB.items w = start_pattern ++ rest.
Proof.
  unfold_match. unfold start_pattern.
  destruct (CB.items w) as [|a [|b [|c [|d rest]]]]; cbn [nth_error];
    try discriminate;
    repeat match goal with
           | |- context [?x =? ?y] =>
               let E := fresh "E" in
               destruct (x =? y) eqn:E; try discriminate;
               try (apply Z.eqb_eq in E; subst x)
           end.
  intros _. now exists rest.
Qed.

Lemma at_stop_true w :
  at_stop w = Ok true -> exists rest, CB.items w = stop_pattern ++ rest.
Proof.
  unfold_match. unfold stop_pattern.
  destruct (CB.items w) as [|a [|b [|c [|d rest]]]]; cbn [nth_error];
    try discriminate;
    repeat match goal with
           | |- context [?x =? ?y] =>
               let E := fresh "E" in
               destruct (x =? y) eqn:E; try discriminate;
               try (apply Z.eqb_eq in E; subst x)
           end.
  intros _. now exists rest.
Qed.

Lemma at_start_pattern w : CB.items w = start_pattern -> at_start w = Ok true.
Proof. intros E. now rewrite (at_start_full w _ _ _ _ [] E). Qed.

Lemma at_stop_on_start w : CB.items w = start_pattern -> at_stop w = Ok false.
Proof. intros E. now rewrite (at_stop_full w _ _ _ _ [] E). Qed.



(** ** One call of [nextInst] *)

Lemma nextInst_new inst t a b :
  is_new inst t = true ->
  at_start (CB.push_back inst (insts t)) = Ok a ->
  at_stop (CB.push_back inst (insts t)) = Ok b ->
  nextInst inst t =
  Ok (mkTracker (CB.push_back inst (insts t))
        (if a then true else needs_reset t)
        (if b then true else needs_emit_cycle_count t)).
Proof. unfold nextInst. intros -> Ha Hb. now rewrite Ha, Hb. Qed.

Lemma nextInst_inv inst t t1 :
  nextInst inst t = Ok t1 ->
  (is_new inst t = false /\ t1 = t) \/
  (is_new inst t = true /\
   exists a b,
     at_start (CB.push_back inst (insts t)) = Ok a /\
     at_stop (CB.push_back inst (insts t)) = Ok b /\
     t1 = mkTracker (CB.push_back inst (insts t))
            (if a then true else needs_reset t)
            (if b then true else needs_emit_cycle_count t)).
Proof.
  unfold nextInst. destruct (is_new inst t).
  - unfold bind. destruct (at_start _) as [a|]; [|discriminate].
    destruct (at_stop _) as [b|]; [|discriminate].
    intros H; injection H as <-. right. split; [reflexivity|].
    now exists a, b.
  - intros H; injection H as <-. now left.
Qed.

Lemma push_back_wf x b :
  CB.capacity b = MAGIC_LEN -> (CB.size b <= MAGIC_LEN)%nat ->
  CB.capacity (CB.push_back x b) = MAGIC_LEN /\
  (CB.size b < MAGIC_LEN ->
   CB.items (CB.push_back x b) = CB.items b ++ [x])%nat /\
  (CB.size b = MAGIC_LEN ->
   CB.items (CB.push_back x b) = tl (CB.items b) ++ [x]).
Proof.
  unfold CB.push_back, CB.full, CB.size, MAGIC_LEN. intros Hc Hs.
  rewrite Hc. destruct (Nat.eqb_spec (length (CB.items b)) 4) as [E|E].
  - destruct (CB.items b) eqn:Ei; [discriminate|]. simpl.
    repeat split; intros; simpl in *; solve [assumption | lia | reflexivity].
  - simpl. repeat split; intros; solve [assumption | lia | reflexivity].
Qed.

Lemma push_back_size x b :
  CB.capacity b = MAGIC_LEN -> (CB.size b <= MAGIC_LEN)%nat ->
  CB.size (CB.push_back x b) = Nat.min (S (CB.size b)) MAGIC_LEN.
Proof.
  intros Hc Hs. destruct (push_back_wf x b Hc Hs) as (_ & Hlt & Heq).
  unfold CB.size, MAGIC_LEN in *.
  destruct (Nat.eq_dec (length (CB.items b)) 4) as [E|E].
  - rewrite (Heq E), length_app. destruct (CB.items b); simpl in *; lia.
  - rewrite Hlt by lia. rewrite length_app. simpl. lia.
Qed.

Lemma wf_new_tracker : wf new_tracker.
Proof. split; [reflexivity | unfold CB.size, MAGIC_LEN; simpl; lia]. Qed.

Lemma wf_nextInst inst t t1 : wf t -> nextInst inst t = Ok t1 -> wf t1.
Proof.
  intros [Hc Hs] H. destruct (nextInst_inv _ _ _ H) as [[_ ->]|[_ (a & b & _ & _ & ->)]].
  - now split.
  - split; simpl.
    + now apply push_back_wf.
    + rewrite push_back_size by assumption. lia.
Qed.

(** On a primed window the comparisons stay in range, and the window
    stays primed. *)
Lemma primed_push inst t :
  wf t -> primed t ->
  exists a b,
    at_start (CB.push_back inst (insts t)) = Ok a /\
    at_stop (CB.push_back inst (insts t)) = Ok b /\
    primed (mkTracker (CB.push_back inst (insts t))
              (if a then true else needs_reset t)
              (if b then true else needs_emit_cycle_count t)).
Proof.
  intros [Hc Hs] Hp.
  destruct (push_back_wf inst (insts t) Hc Hs) as (_ & Hlt & Heq).
  pose proof (push_back_size inst (insts t) Hc Hs) as Hsz.
  destruct (Nat.eq_dec (CB.size (insts t)) MAGIC_LEN) as [E|E].
  - (* full before the push, full after it *)
    specialize (Heq E).
    assert (Hfull : CB.size (CB.push_back inst (insts t)) = MAGIC_LEN)
      by (rewrite Hsz, E; reflexivity).
    unfold CB.size, MAGIC_LEN in Hfull.
    destruct (CB.items (CB.push_back inst (insts t)))
      as [|x0 [|x1 [|x2 [|x3 [|x4 r]]]]] eqn:Ei; try discriminate.
    eexists _, _. split; [eapply at_start_full; eauto|].
    split; [eapply at_stop_full; eauto|].
    left. unfold CB.size. simpl. now rewrite Ei.
  - destruct Hp as [Hp|(x & rest & Hi & Hx1 & Hx2)]; [contradiction|].
    assert (Hi' : CB.items (CB.push_back inst (insts t)) = x :: rest ++ [inst]).
    { rewrite Hlt by lia. now rewrite Hi. }
    exists false, false.
    split; [eapply at_start_other; eauto|].
    split; [eapply at_stop_other; eauto|].
    right. exists x, (rest ++ [inst]). simpl. now repeat split.
Qed.

Lemma primed_nextInst inst t :
  wf t -> primed t ->
  exists t1, nextInst inst t = Ok t1 /\ wf t1 /\ primed t1.
Proof.
  intros Hw Hp. destruct (is_new inst t) eqn:E.
  - destruct (primed_push inst t Hw Hp) as (a & b & Ha & Hb & Hp').
    eexists. split; [apply (nextInst_new _ _ _ _ E Ha Hb)|].
    split; [|exact Hp'].
    eapply wf_nextInst; [exact Hw | apply (nextInst_new _ _ _ _ E Ha Hb)].
  - exists t. now rewrite nextInst_old.
Qed.

(** The first call on a new tracker is in range exactly when the
    instruction starts neither sequence. *)
Lemma first_nextInst inst :
  inst <> MAGIC_START0 -> inst <> MAGIC_STOP0 ->
  nextInst inst new_tracker =
  Ok (mkTracker (CB.mk MAGIC_LEN [inst]) false false).
Proof.
  intros H1 H2.
  rewrite (nextInst_new inst new_tracker false false); try reflexivity.
  - now apply (at_start_other _ inst []).
  - now apply (at_stop_other _ inst []).
Qed.

(** ** One cycle of the tracker *)

Lemma watch_eq inst t :
  watch inst t =
  (t1 <- nextInst inst t ;;
   Ok (needs_reset t1, needs_emit_cycle_count t1,
       mkTracker (insts t1) false false)).
Proof.
  unfold watch, bind. destruct (nextInst inst t) as [[w [|] [|]]|]; reflexivity.
Qed.

Lemma watch_old inst t :
  is_new inst t = false -> idle t -> watch inst t = Ok (false, false, t).
Proof.
  intros Hn [H1 H2]. rewrite watch_eq, nextInst_old by assumption. simpl.
  rewrite H1, H2. destruct t; simpl in *; now subst.
Qed.

Lemma watch_then_old inst t a b t1 :
  watch inst t = Ok (a, b, t1) -> is_new inst t1 = false /\ idle t1.
Proof.
  rewrite watch_eq. unfold bind.
  destruct (nextInst inst t) as [t0|] eqn:E; [|discriminate].
  intros H; injection H as <- <- <-.
  apply nextInst_then_old in E. split; [exact E | now split].
Qed.

Lemma watch_all_repeat_old inst t k rest :
  is_new inst t = false -> idle t ->
  watch_all (repeat inst k ++ rest) t = watch_all rest t.
Proof.
  intros Hn Hi. induction k as [|k IH]; simpl; [reflexivity|].
  rewrite (watch_old _ _ Hn Hi). simpl. rewrite IH.
  unfold bind. destruct (watch_all rest t) as [[[na nb] t2]|]; reflexivity.
Qed.

(** Holding an instruction for several cycles is seen as one observation. *)
Lemma watch_all_repeat inst t k rest :
  watch_all (repeat inst (S k) ++ rest) t = watch_all (inst :: rest) t.
Proof.
  simpl. unfold bind at 1 3.
  destruct (watch inst t) as [[[a b] t1]|] eqn:E; [|reflexivity].
  destruct (watch_then_old _ _ _ _ _ E) as [Hn Hi].
  now rewrite (watch_all_repeat_old _ _ _ _ Hn Hi).
Qed.

(** ** The loop body, phase by phase *)

Lemma observe_phase_eq inp s :
  observe_phase inp s =
  ('(a, b, t3) <- watch (getInst inp) (tracker s) ;;
   Ok (set_tracker t3 (if a then set_trace_count 0 s else s),
       (if a then [ResetNotice] else [])
         ++ (if b then [CycleCountNotice (if a then 0 else trace_count s)]
             else []))).
Proof.
  unfold observe_phase, watch, bind.
  destruct (nextInst _ _) as [[w [|] [|]]|]; reflexivity.
Qed.

Lemma cycle_eq cfg inp s :
  cycle cfg inp s =
  (let s1 := fst (eval_phase inp s) in
   let s2 := fst (host_exchange inp s1) in
   '(s3, ev_obs) <- observe_phase inp s2 ;;
   Ok (fst (commit_phase s3),
       drive_memory cfg ++ snd (eval_phase inp s) ++ tick_memory cfg
         ++ snd (host_exchange inp s1) ++ print_phase cfg s2
         ++ ev_obs ++ dump_phase cfg s3 ++ snd (commit_phase s3))).
Proof.
  unfold cycle. destruct (eval_phase inp s) as [s1 e1]. simpl.
  destruct (host_exchange inp s1) as [s2 e2]. reflexivity.
Qed.

(** The host exchange and the evaluation leave counter and tracker alone. *)
Lemma host_exchange_keeps inp s :
  let s' := fst (host_exchange inp s) in
  max_cycles s' = max_cycles s /\ trace_count s' = trace_count s /\
  ret s' = ret s /\ tracker s' = tracker s.
Proof.
  unfold host_exchange.
  destruct (host_clk_edge inp); [|now simpl].
  destruct (host_in_ready inp || negb (htif_in_valid s)); now simpl.
Qed.

Lemma eval_phase_keeps inp s :
  let s' := fst (eval_phase inp s) in
  trace_count s' = trace_count s /\ tracker s' = tracker s /\
  htif_in_valid s' = htif_in_valid s /\ htif_in_bits s' = htif_in_bits s.
Proof. unfold eval_phase. destruct (clock_lo_throws inp); now simpl. Qed.

(** A cycle is defined exactly when the tracker's call is. *)
Lemma cycle_ok cfg inp s a b t3 :
  watch (getInst inp) (tracker s) = Ok (a, b, t3) ->
  exists s' ev, cycle cfg inp s = Ok (s', ev) /\
    tracker s' = t3 /\
    trace_count s' = wrap64 ((if a then 0 else trace_count s) + 1) /\
    max_cycles s' = max_cycles (fst (eval_phase inp s)) /\
    ret s' = ret (fst (eval_phase inp s)).
Proof.
  intros Hw. rewrite cycle_eq. cbv zeta.
  set (s1 := fst (eval_phase inp s)).
  set (s2 := fst (host_exchange inp s1)).
  assert (H2 : max_cycles s2 = max_cycles s1 /\ trace_count s2 = trace_count s /\
               ret s2 = ret s1 /\ tracker s2 = tracker s).
  { destruct (host_exchange_keeps inp s1) as (A & B & C & D).
    destruct (eval_phase_keeps inp s) as (E & F & _).
    fold s1 in E, F. fold s2 in A, B, C, D. repeat split; congruence. }
  destruct H2 as (A & B & C & D).
  rewrite observe_phase_eq, D, Hw. simpl.
  eexists _, _. split; [reflexivity|].
  destruct a; simpl; rewrite ?B; repeat split; assumption.
Qed.

(** ** Unrolling the loop *)

Lemma loop_exit cfg env fuel n s tr :
  loop_cond (env n) s = false ->
  loop cfg env fuel n s tr = Ok (Some (mkExit n s tr)).
Proof. intros H. destruct fuel; simpl; now rewrite H. Qed.

Lemma loop_step cfg env fuel n s tr s' ev :
  loop_cond (env n) s = true ->
  cycle cfg (env n) s = Ok (s', ev) ->
  loop cfg env (S fuel) n s tr = loop cfg env fuel (S n) s' (tr ++ ev).
Proof. intros H Hc. simpl. now rewrite H, Hc. Qed.

Lemma steps_S cfg env k n s tr s1 ev :
  cycle cfg (env n) s = Ok (s1, ev) ->
  steps cfg env (S k) n s tr = steps cfg env k (S n) s1 (tr ++ ev).
Proof. intros H. simpl. now rewrite H. Qed.

Lemma steps_S_inv cfg env k n s tr s' tr' :
  steps cfg env (S k) n s tr = Ok (s', tr') ->
  exists s1 ev, cycle cfg (env n) s = Ok (s1, ev) /\
                steps cfg env k (S n) s1 (tr ++ ev) = Ok (s', tr').
Proof.
  simpl. unfold bind. destruct (cycle cfg (env n) s) as [[s1 ev]|]; [|discriminate].
  intros H. now exists s1, ev.
Qed.


(** While the loop condition holds, the loop runs the body. *)
Lemma loop_steps cfg env k : forall fuel n s tr s' tr',
  steps cfg env k n s tr = Ok (s', tr') ->
  (forall j sj trj, (j < k)%nat ->
     steps cfg env j n s tr = Ok (sj, trj) ->
     loop_cond (env (n + j)%nat) sj = true) ->
  loop cfg env (k + fuel) n s tr = loop cfg env fuel (n + k) s' tr'.
Proof.
  induction k as [|k IH]; intros fuel n s tr s' tr' Hi Hc.
  - simpl in Hi. injection Hi as <- <-. now rewrite Nat.add_0_r.
  - destruct (steps_S_inv _ _ _ _ _ _ _ _ Hi) as (s1 & ev & Hcy & Hi').
    assert (H0 : loop_cond (env n) s = true).
    { rewrite <- (Nat.add_0_r n). apply (Hc 0%nat s tr); [lia | reflexivity]. }
    change (S k + fuel)%nat with (S (k + fuel)).
    rewrite (loop_step _ _ _ _ _ _ _ _ H0 Hcy).
    rewrite (IH fuel (S n) s1 (tr ++ ev) s' tr' Hi').
    + f_equal. lia.
    + intros j sj trj Hj Hij.
      replace (S n + j)%nat with (n + S j)%nat by lia.
      apply (Hc (S j) sj trj); [lia|].
      now rewrite (steps_S _ _ _ _ _ _ _ _ Hcy).
Qed.

(** ** The tracker along a run *)

Lemma start_at_watch env n t a :
  tracker_at env n = Ok t -> start_at env n = Ok a ->
  exists b t3, watch (getInst (env n)) t = Ok (a, b, t3) /\
               tracker_at env (S n) = Ok t3.
Proof.
  unfold start_at. intros Ht. simpl. rewrite Ht. simpl.
  destruct (watch _ _) as [[[a' b] t3]|]; simpl; [|discriminate].
  intros H; injection H as ->. now exists b, t3.
Qed.

Lemma cycle_tracker_at cfg env n s s' ev :
  tracker_at env n = Ok (tracker s) ->
  cycle cfg (env n) s = Ok (s', ev) ->
  tracker_at env (S n) = Ok (tracker s').
Proof.
  intros Ht Hc. simpl. rewrite Ht. simpl.
  destruct (watch (getInst (env n)) (tracker s)) as [[[a b] t3]|] eqn:E.
  - destruct (cycle_ok cfg _ _ _ _ _ E) as (s1 & ev1 & Hc1 & Htr & _).
    simpl. congruence.
  - exfalso. rewrite cycle_eq in Hc. cbv zeta in Hc.
    rewrite observe_phase_eq in Hc.
    destruct (host_exchange_keeps (env n) (fst (eval_phase (env n) s)))
      as (_ & _ & _ & D).
    destruct (eval_phase_keeps (env n) s) as (_ & F & _).
    cbv zeta in D, F. rewrite D, F, E in Hc. discriminate.
Qed.


Lemma wrap64_small z : 0 <= z < 2 ^ 64 -> wrap64 z = z.
Proof. intros H. unfold wrap64. now apply Z.mod_small. Qed.

Lemma wrap64_succ_neq z : wrap64 (z + 1) <> z.
Proof.
  unfold wrap64. intros H.
  assert (0 <= z < 2 ^ 64) by (rewrite <- H; apply Z.mod_pos_bound; lia).
  destruct (Z.eq_dec z (2 ^ 64 - 1)) as [->|Hn].
  - vm_compute in H. discriminate.
  - rewrite Z.mod_small in H by lia. lia.
Qed.

(** A stretch of iterations without a start event: the counter advances by
    one per iteration. *)
Lemma steps_quiet cfg env k : forall n s tr,
  tracker_at env n = Ok (tracker s) ->
  0 <= trace_count s -> trace_count s + Z.of_nat k < 2 ^ 64 ->
  (forall j, (j < k)%nat -> start_at env (n + j) = Ok false) ->
  exists s' tr',
    steps cfg env k n s tr = Ok (s', tr') /\
    tracker_at env (n + k) = Ok (tracker s') /\
    trace_count s' = trace_count s + Z.of_nat k /\
    ((forall j, (j < k)%nat -> clock_lo_throws (env (n + j)%nat) = false) ->
     max_cycles s' = max_cycles s /\ ret s' = ret s).
Proof.
  induction k as [|k IH]; intros n s tr Ht H0 Hb Hq.
  - exists s, tr. simpl. rewrite Nat.add_0_r, Z.add_0_r. auto.
  - assert (Hs : start_at env n = Ok false).
    { rewrite <- (Nat.add_0_r n). apply Hq. lia. }
    destruct (start_at_watch _ _ _ _ Ht Hs) as (b & t3 & Hw & Ht3).
    destruct (cycle_ok cfg _ _ _ _ _ Hw) as (s1 & ev & Hc & Htr & Hcnt & Hmax & Hret).
    rewrite wrap64_small in Hcnt by lia.
    destruct (IH (S n) s1 (tr ++ ev)) as (s' & tr' & Hi & Ht' & Hc' & Hk).
    + now rewrite Htr.
    + lia.
    + lia.
    + intros j Hj. replace (S n + j)%nat with (n + S j)%nat by lia.
      apply Hq. lia.
    + exists s', tr'. rewrite (steps_S _ _ _ _ _ _ _ _ Hc), Nat.add_succ_r.
      split; [exact Hi|]. split; [exact Ht'|]. split; [lia|].
      intros Hn.
      assert (Hn0 : clock_lo_throws (env n) = false).
      { rewrite <- (Nat.add_0_r n). apply Hn. lia. }
      destruct Hk as [Hm Hr].
      { intros j Hj. replace (S n + j)%nat with (n + S j)%nat by lia.
        apply Hn. lia. }
      unfold eval_phase in Hmax, Hret. rewrite Hn0 in Hmax, Hret.
      simpl in Hmax, Hret. split; congruence.
Qed.

(** The same stretch inside the loop, when neither the transport nor the
    budget nor a failure ends it. *)
Lemma loop_quiet cfg env k n s tr fuel :
  tracker_at env n = Ok (tracker s) ->
  ret s = 0 -> 0 <= trace_count s ->
  trace_count s + Z.of_nat k <= max_cycles s -> max_cycles s < 2 ^ 64 ->
  (forall j, (j < k)%nat ->
     htif_done (env (n + j)%nat) = false /\
     clock_lo_throws (env (n + j)%nat) = false /\
     start_at env (n + j) = Ok false) ->
  exists s' tr',
    loop cfg env (k + fuel) n s tr = loop cfg env fuel (n + k) s' tr' /\
    tracker_at env (n + k) = Ok (tracker s') /\
    trace_count s' = trace_count s + Z.of_nat k /\
    max_cycles s' = max_cycles s /\ ret s' = 0.
Proof.
  intros Ht Hr H0 Hb Hm Hq.
  destruct (steps_quiet cfg env k n s tr Ht H0) as (s' & tr' & Hi & Ht' & Hc & Hk);
    [lia | intros j Hj; apply Hq; exact Hj |].
  destruct Hk as [Hmax Hret]; [intros j Hj; apply Hq; exact Hj|].
  exists s', tr'. split; [|repeat split; congruence].
  apply loop_steps; [exact Hi|].
  intros j sj trj Hj Hij.
  destruct (steps_quiet cfg env j n s tr Ht H0) as (sj' & trj' & Hi2 & _ & Hc2 & Hk2);
    [lia | intros i Hi'; apply Hq; lia |].
  rewrite Hij in Hi2. injection Hi2 as <- <-.
  destruct Hk2 as [Hmax2 Hret2]; [intros i Hi'; apply Hq; lia|].
  unfold loop_cond.
  destruct (Hq j Hj) as (Hd & _ & _). rewrite Hd, Hret2, Hr. simpl.
  rewrite andb_true_r. apply Z.ltb_lt. lia.
Qed.

(** ** The two sequences, fed whole *)

Ltac split_eqb :=
  repeat match goal with
         | |- context [Z.eqb ?a ?b] =>
             destruct (Z.eqb_spec a b);
             try congruence; subst; cbv -[Z.eqb]
         end.

Lemma wf_idle_shapes t :
  wf t -> idle t ->
  exists l, t = mkTracker (CB.mk MAGIC_LEN l) false false /\
            (length l <= 4)%nat.
Proof.
  destruct t as [[cap l] nr ne]. unfold wf, idle, CB.size, MAGIC_LEN. simpl.
  intros [-> Hl] [-> ->]. now exists l.
Qed.

(** Whenever the four calls are in range, they yield one start event. *)
Lemma start_sequence_in_range t r :
  wf t -> idle t ->
  ~ (exists pre, CB.items (insts t)
                 = pre ++ [MAGIC_START0; MAGIC_START1; MAGIC_START2]) ->
  watch_all start_pattern t = Ok r ->
  r = (1%nat, 0%nat, mkTracker (CB.mk MAGIC_LEN start_pattern) false false).
Proof.
  intros Hw Hi Hno.
  destruct (wf_idle_shapes t Hw Hi) as (l & -> & Hlen).
  simpl in Hno.
  destruct l as [|a [|b [|c [|d [|e l]]]]]; [| | | | |simpl in Hlen; lia];
    cbv -[Z.eqb]; split_eqb;
    try (intros H; first [discriminate H | now injection H as <-]).
  - exfalso. apply Hno. now exists [].
  - exfalso. apply Hno. now exists [a].
Qed.


(** On a primed window every call is in range. *)
Lemma watch_all_primed obs : forall t,
  wf t -> primed t -> exists r, watch_all obs t = Ok r.
Proof.
  induction obs as [|i rest IH]; intros t Hw Hp; simpl.
  - now eexists.
  - destruct (primed_nextInst i t Hw Hp) as (t1 & Hn & [Hc Hs] & Hp1).
    rewrite watch_eq, Hn. cbn [bind].
    destruct (IH (mkTracker (insts t1) false false)) as ([[na nb] t2] & ->).
    + now split.
    + exact Hp1.
    + now eexists.
Qed.

Lemma start_sequence_primed t :
  wf t -> primed t -> idle t ->
  ~ (exists pre, CB.items (insts t)
                 = pre ++ [MAGIC_START0; MAGIC_START1; MAGIC_START2]) ->
  watch_all start_pattern t =
  Ok (1%nat, 0%nat, mkTracker (CB.mk MAGIC_LEN start_pattern) false false).
Proof.
  intros Hw Hp Hi Hno.
  destruct (watch_all_primed start_pattern t Hw Hp) as (r & Hr).
  now rewrite Hr, (start_sequence_in_range t r Hw Hi Hno Hr).
Qed.


(** A push that completes a sequence is in range and raises its flag. *)
Lemma nextInst_completes_start inst t :
  is_new inst t = true ->
  CB.items (CB.push_back inst (insts t)) = start_pattern ->
  nextInst inst t =
  Ok (mkTracker (CB.push_back inst (insts t)) true (needs_emit_cycle_count t)).
Proof.
  intros Hn Hw.
  now rewrite (nextInst_new _ _ true false Hn (at_start_pattern _ Hw)
                 (at_stop_on_start _ Hw)).
Qed.


Lemma wf_exact_pattern w pat rest :
  (CB.size w <= MAGIC_LEN)%nat -> length pat = MAGIC_LEN ->
  CB.items w = pat ++ rest -> CB.items w = pat.
Proof.
  unfold CB.size. intros Hs Hl E. rewrite E in Hs. rewrite length_app in Hs.
  destruct rest; [now rewrite app_nil_r in E|]. simpl in Hs. lia.
Qed.

(** The flags are raised by a completing push and by nothing else. *)
Lemma needs_reset_raised inst t t1 :
  wf t -> needs_reset t = false -> nextInst inst t = Ok t1 ->
  needs_reset t1 = true ->
  is_new inst t = true /\ CB.items (insts t1) = start_pattern.
Proof.
  intros Hw H0 Hn H1.
  pose proof (wf_nextInst _ _ _ Hw Hn) as [_ Hs1].
  destruct (nextInst_inv _ _ _ Hn) as [[_ ->]|[E (a & b & Ha & Hb & ->)]];
    [congruence|].
  split; [exact E|]. simpl in *. rewrite H0 in H1. destruct a; [|discriminate].
  destruct (at_start_true _ Ha) as (rest & Hr).
  eapply wf_exact_pattern; eauto.
Qed.

Lemma needs_emit_raised inst t t1 :
  wf t -> needs_emit_cycle_count t = false -> nextInst inst t = Ok t1 ->
  needs_emit_cycle_count t1 = true ->
  is_new inst t = true /\ CB.items (insts t1) = stop_pattern.
Proof.
  intros Hw H0 Hn H1.
  pose proof (wf_nextInst _ _ _ Hw Hn) as [_ Hs1].
  destruct (nextInst_inv _ _ _ Hn) as [[_ ->]|[E (a & b & Ha & Hb & ->)]];
    [congruence|].
  split; [exact E|]. simpl in *. rewrite H0 in H1. destruct b; [|discriminate].
  destruct (at_stop_true _ Hb) as (rest & Hr).
  eapply wf_exact_pattern; eauto.
Qed.

(** ** Repeated observations, and the first push *)

Lemma feed_primed obs : forall t,
  wf t -> primed t -> exists t', feed obs t = Ok t' /\ wf t' /\ primed t'.
Proof.
  induction obs as [|i rest IH]; intros t Hw Hp; simpl.
  - now exists t.
  - destruct (primed_nextInst i t Hw Hp) as (t1 & -> & Hw1 & Hp1).
    simpl. now apply IH.
Qed.

(** C8 (evaluation at the failing input).  On a new tracker whose first
    instruction is the first word of a magic sequence, [nextInst] pushes it,
    finds slot 0 equal to that word and goes on to compare slot 1 while the
    buffer holds one element: index 1 is not below the size 1; [main] meets
    this in its first iteration.  The first call is in range exactly for the
    other instructions, and then so is every later call. *)
Theorem first_push_compares_slot_out_of_range :
  CB.size (CB.push_back MAGIC_START0 (insts new_tracker)) = 1%nat /\
  nextInst MAGIC_START0 new_tracker = Fault (OutOfRange 1 1) /\
  nextInst MAGIC_STOP0 new_tracker = Fault (OutOfRange 1 1) /\
  main (sample_cfg 100) (fun _ => quiet_cycle MAGIC_START0) 0 1
  = Fault (OutOfRange 1 1) /\
  (forall inst, is_ok (nextInst inst new_tracker) = true <->
                inst <> MAGIC_START0 /\ inst <> MAGIC_STOP0) /\
  (forall inst obs,
     inst <> MAGIC_START0 -> inst <> MAGIC_STOP0 ->
     is_ok (feed (inst :: obs) new_tracker) = true).
Proof.
  split; [reflexivity|]. split; [reflexivity|]. split; [reflexivity|].
  split; [reflexivity|]. split.
  - intros inst. split.
    + intros H. split; intros ->; discriminate.
    + intros [H1 H2]. now rewrite first_nextInst.
  - intros inst obs H1 H2. simpl. rewrite first_nextInst by assumption.
    simpl.
    destruct (feed_primed obs (mkTracker (CB.mk MAGIC_LEN [inst]) false false))
      as (t' & -> & _); [|right; now exists inst, []|reflexivity].
    split; [reflexivity | unfold CB.size, MAGIC_LEN; simpl; lia].
Qed.

(** ** The events of one iteration *)

Lemma observe_phase_inv inp s s' ev :
  observe_phase inp s = Ok (s', ev) ->
  exists t1,
    nextInst (getInst inp) (tracker s) = Ok t1 /\
    s' = set_tracker (mkTracker (insts t1) false false)
           (if needs_reset t1 then set_trace_count 0 s else s) /\
    ev = (if needs_reset t1 then [ResetNotice] else [])
           ++ (if needs_emit_cycle_count t1
               then [CycleCountNotice
                       (if needs_reset t1 then 0 else trace_count s)]
               else []).
Proof.
  rewrite observe_phase_eq, watch_eq. unfold bind.
  destruct (nextInst _ _) as [t1|]; [|discriminate].
  intros H; injection H as <- <-. now exists t1.
Qed.

Lemma observe_phase_ok inp s t1 :
  nextInst (getInst inp) (tracker s) = Ok t1 ->
  observe_phase inp s =
  Ok (set_tracker (mkTracker (insts t1) false false)
        (if needs_reset t1 then set_trace_count 0 s else s),
      (if needs_reset t1 then [ResetNotice] else [])
        ++ (if needs_emit_cycle_count t1
            then [CycleCountNotice
                    (if needs_reset t1 then 0 else trace_count s)]
            else [])).
Proof. intros H. rewrite observe_phase_eq, watch_eq, H. reflexivity. Qed.

Ltac case_ifs :=
  repeat match goal with
         | |- context [if ?c then _ else _] => destruct c
         end.

Lemma filter_map_none {A} (p : event -> bool) (f : A -> event) l :
  (forall c, p (f c) = false) -> filter p (map f l) = [].
Proof. intros H. induction l; simpl; [reflexivity|]. now rewrite H. Qed.






Lemma watch_all_cons_ext i l1 l2 t :
  (forall t1, watch_all l1 t1 = watch_all l2 t1) ->
  watch_all (i :: l1) t = watch_all (i :: l2) t.
Proof.
  intros H. simpl. unfold bind at 1 3.
  destruct (watch i t) as [[[a b] t1]|]; [|reflexivity]. now rewrite H.
Qed.

Lemma watch_all_repeats a b c d n0 n1 n2 n3 t :
  watch_all (repeat a (S n0) ++ repeat b (S n1)
               ++ repeat c (S n2) ++ repeat d (S n3)) t
  = watch_all [a; b; c; d] t.
Proof.
  rewrite watch_all_repeat. apply watch_all_cons_ext. intros t1.
  rewrite watch_all_repeat. apply watch_all_cons_ext. intros t2.
  rewrite watch_all_repeat. apply watch_all_cons_ext. intros t3.
  rewrite <- (app_nil_r (repeat d (S n3))). apply watch_all_repeat.
Qed.

(** ** Start and stop never meet *)

Lemma tracker_at_inv env n t :
  tracker_at env n = Ok t -> wf t /\ idle t.
Proof.
  revert t. induction n as [|n IH]; intros t; simpl.
  - intros H; injection H as <-. split; [apply wf_new_tracker | now split].
  - unfold bind. destruct (tracker_at env n) as [t0|]; [|discriminate].
    destruct (IH t0 eq_refl) as [Hw _].
    rewrite watch_eq. unfold bind.
    destruct (nextInst (getInst (env n)) t0) as [t1|] eqn:E; [|discriminate].
    intros H; injection H as <-.
    destruct (wf_nextInst _ _ _ Hw E) as [Hc Hs].
    split; [now split | now split].
Qed.


(** C4. Whenever a push makes the four most recent distinct observations
    equal to the start sequence, the call is in range and raises the start
    event, which [hitStart] reports once and then no more; in the loop that
    iteration prints the reset notice once and leaves the cycle counter
    at 0; on a window of capacity [MAGIC_LEN] nothing else raises the event;
    holding any of the four encodings for several cycles changes neither the
    events nor the final tracker; and on a tracker without pending event,
    whose window does not already end with the first three encodings, the
    four encodings yield exactly one start event whenever the four calls
    are in range, as they are on every primed tracker. *)
Theorem start_sequence_one_event :
  (forall inst t,
     is_new inst t = true ->
     CB.items (CB.push_back inst (insts t)) = start_pattern ->
     exists t1,
       nextInst inst t = Ok t1 /\ CB.items (insts t1) = start_pattern /\
       fst (hitStart t1) = true /\
       fst (hitStart (snd (hitStart t1))) = false) /\
  (forall inp s,
     is_new (getInst inp) (tracker s) = true ->
     CB.items (CB.push_back (getInst inp) (insts (tracker s)))
     = start_pattern ->
     exists s' ev,
       observe_phase inp s = Ok (s', ev) /\
       filter is_reset ev = [ResetNotice] /\
       trace_count s' = 0 /\ needs_reset (tracker s') = false) /\
  (forall inp s s' ev,
     wf (tracker s) -> needs_reset (tracker s) = false ->
     observe_phase inp s = Ok (s', ev) -> In ResetNotice ev ->
     is_new (getInst inp) (tracker s) = true /\
     CB.items (insts (tracker s')) = start_pattern /\ trace_count s' = 0) /\
  (forall n0 n1 n2 n3 t,
     watch_all (repeat MAGIC_START0 (S n0) ++ repeat MAGIC_START1 (S n1)
                  ++ repeat MAGIC_START2 (S n2) ++ repeat MAGIC_START3 (S n3)) t
     = watch_all start_pattern t) /\
  (forall t,
     wf t -> primed t -> idle t ->
     ~ (exists pre, CB.items (insts t)
                    = pre ++ [MAGIC_START0; MAGIC_START1; MAGIC_START2]) ->
     watch_all start_pattern t =
     Ok (1%nat, 0%nat,
         mkTracker (CB.mk MAGIC_LEN start_pattern) false false)) /\
  (forall t r,
     wf t -> idle t ->
     ~ (exists pre, CB.items (insts t)
                    = pre ++ [MAGIC_START0; MAGIC_START1; MAGIC_START2]) ->
     watch_all start_pattern t = Ok r ->
     r = (1%nat, 0%nat,
          mkTracker (CB.mk MAGIC_LEN start_pattern) false false)).
Proof.
  split; [|split; [|split; [|split; [|split]]]].
  - intros inst t Hn Hw. eexists. split; [now apply nextInst_completes_start|].
    simpl. repeat split. exact Hw.
  - intros inp s Hn Hw. rewrite (observe_phase_ok _ _ _
      (nextInst_completes_start _ _ Hn Hw)). simpl.
    eexists _, _. split; [reflexivity|].
    destruct (needs_emit_cycle_count (tracker s)); now simpl.
  - intros inp s s' ev Hwf H0 Ho Hin.
    destruct (observe_phase_inv _ _ _ _ Ho) as (t1 & Hn & -> & ->).
    destruct (needs_reset t1) eqn:E1.
    + destruct (needs_reset_raised _ _ _ Hwf H0 Hn E1) as [A B].
      now repeat split.
    + exfalso. simpl in Hin.
      destruct (needs_emit_cycle_count t1); simpl in Hin;
        [destruct Hin as [Hin|[]]; discriminate | destruct Hin].
  - intros. apply watch_all_repeats.
  - intros. now apply start_sequence_primed.
  - intros t r Hw Hi Hno Hr. exact (start_sequence_in_range t r Hw Hi Hno Hr).
Qed.

(** ** From a start event to a stop event *)








(** Only the dump phase calls [tile.dump]; it sees the counter as the
    tracker phase left it. *)
Lemma cycle_dumps cfg inp s a b t3 :
  watch (getInst inp) (tracker s) = Ok (a, b, t3) ->
  exists s' ev, cycle cfg inp s = Ok (s', ev) /\
    filter is_dump ev =
      dump_phase cfg (set_trace_count (if a then 0 else trace_count s) s).
Proof.
  intros Hw. rewrite cycle_eq. cbv zeta.
  destruct (host_exchange_keeps inp (fst (eval_phase inp s))) as (_ & B & _ & D).
  destruct (eval_phase_keeps inp s) as (E & F & _).
  cbv zeta in B, D, E, F.
  rewrite observe_phase_eq, D, F, Hw. simpl.
  eexists _, _. split; [reflexivity|].
  rewrite !filter_app.
  unfold drive_memory, tick_memory.
  rewrite !(filter_map_none is_dump) by reflexivity.
  unfold dump_phase. simpl.
  assert (Hc : trace_count
                 (if a then set_trace_count 0
                              (fst (host_exchange inp (fst (eval_phase inp s))))
                  else fst (host_exchange inp (fst (eval_phase inp s))))
               = (if a then 0 else trace_count s)).
  { destruct a; simpl; congruence. }
  rewrite Hc.
  unfold eval_phase, host_exchange, print_phase.
  case_ifs; reflexivity.
Qed.

(** C7. With tracing enabled and a trace start of 10, the dump phase writes
    the record of cycle 0, writes none for the cycles 1 to 9 and writes the
    record of every cycle from 10 on; the records an iteration writes are
    those of its dump phase, taken at the counter the tracker phase left
    (0 when a start event was consumed in that iteration). *)
Theorem trace_dump_threshold (cfg : Config) :
  vcd cfg = true -> start cfg = 10 ->
  (forall s, trace_count s = 0 -> dump_phase cfg s = [Dump 0]) /\
  (forall s, 1 <= trace_count s <= 9 -> dump_phase cfg s = []) /\
  (forall s, 10 <= trace_count s ->
             dump_phase cfg s = [Dump (trace_count s)]) /\
  (forall inp s a b t3,
     watch (getInst inp) (tracker s) = Ok (a, b, t3) ->
     exists s' ev, cycle cfg inp s = Ok (s', ev) /\
       let i := if a then 0 else trace_count s in
       filter is_dump ev =
         if (i =? 0) || (10 <=? i) then [Dump i] else []).
Proof.
  intros Hv Hs. unfold dump_phase. rewrite Hv, Hs. simpl.
  split; [|split; [|split]].
  - intros s ->. reflexivity.
  - intros s H. destruct (Z.eqb_spec (trace_count s) 0); [lia|].
    destruct (Z.leb_spec 10 (trace_count s)); [lia|]. reflexivity.
  - intros s H. destruct (Z.leb_spec 10 (trace_count s)); [|lia].
    now rewrite orb_true_r.
  - intros inp s a b t3 Hw.
    destruct (cycle_dumps cfg _ _ _ _ _ Hw) as (s' & ev & Hc & Hd).
    exists s', ev. split; [exact Hc|]. cbv zeta. rewrite Hd.
    unfold dump_phase. rewrite Hv, Hs. reflexivity.
Qed.

Lemma trace_dump_threshold_witness :
  dump_phase (sample_cfg 100) (set_trace_count 0 (initial (sample_cfg 100)))
  = [Dump 0] /\
  dump_phase (sample_cfg 100) (set_trace_count 9 (initial (sample_cfg 100)))
  = [] /\
  dump_phase (sample_cfg 100) (set_trace_count 10 (initial (sample_cfg 100)))
  = [Dump 10].
Proof.
  destruct (trace_dump_threshold (sample_cfg 100) eq_refl eq_refl)
    as (H0 & H1 & H2 & _).
  split; [apply H0; reflexivity|].
  split; [apply H1; simpl; lia | apply (H2 (set_trace_count 10 _)); simpl; lia].
Defined.

(** ** The pending inbound frame *)

Lemma host_exchange_pending inp s :
  htif_in_valid s = true ->
  (host_clk_edge inp = true -> host_in_ready inp = false) ->
  fst (host_exchange inp s) = s /\
  filter is_recv (snd (host_exchange inp s)) = [] /\
  filter is_host_in (snd (host_exchange inp s)) =
    (if host_clk_edge inp then [HostIn true (htif_in_bits s)] else []).
Proof.
  intros Hv Hr. unfold host_exchange.
  destruct (host_clk_edge inp); [|now simpl].
  rewrite (Hr eq_refl), Hv. simpl. rewrite Hv.
  destruct (host_out_valid inp); now simpl.
Qed.

Lemma cycle_pending cfg inp s s' ev :
  htif_in_valid s = true ->
  (host_clk_edge inp = true -> host_in_ready inp = false) ->
  cycle cfg inp s = Ok (s', ev) ->
  htif_in_valid s' = true /\ htif_in_bits s' = htif_in_bits s /\
  filter is_recv ev = [] /\
  filter is_host_in ev =
    (if host_clk_edge inp then [HostIn true (htif_in_bits s)] else []).
Proof.
  intros Hv Hr. rewrite cycle_eq. cbv zeta.
  destruct (eval_phase_keeps inp s) as (_ & _ & G & H). cbv zeta in G, H.
  destruct (host_exchange_pending inp (fst (eval_phase inp s)))
    as (A & B & C); [congruence | exact Hr |].
  rewrite A. unfold bind.
  destruct (observe_phase inp _) as [[s3 ev_obs]|] eqn:Eo; [|discriminate].
  intros Hc; injection Hc as <- <-.
  destruct (observe_phase_inv _ _ _ _ Eo) as (t1 & _ & -> & ->).
  rewrite !filter_app. unfold drive_memory, tick_memory.
  rewrite !(filter_map_none is_recv), !(filter_map_none is_host_in)
    by reflexivity.
  rewrite B, C, H.
  split; [destruct (needs_reset t1); simpl; congruence|].
  split; [destruct (needs_reset t1); simpl; congruence|].
  unfold eval_phase, print_phase, dump_phase.
  split; case_ifs; reflexivity.
Qed.

Lemma gated_cycles_S env n k :
  gated_cycles env n (S k) =
  ((if host_clk_edge (env n) then 1 else 0) + gated_cycles env (S n) k)%nat.
Proof.
  unfold gated_cycles. simpl. destruct (host_clk_edge (env n)); reflexivity.
Qed.

(** A run of the loop that ends is made of iterations of the body. *)
Lemma loop_is_steps cfg env fuel : forall n s tr e,
  loop cfg env fuel n s tr = Ok (Some e) ->
  (n <= iterations e)%nat /\
  steps cfg env (iterations e - n) n s tr = Ok (final e, trace e).
Proof.
  induction fuel as [|fuel IH]; intros n s tr e; simpl;
    destruct (loop_cond (env n) s).
  - discriminate.
  - intros H; injection H as <-. simpl. now rewrite Nat.sub_diag.
  - unfold bind. destruct (cycle cfg (env n) s) as [[s1 ev]|] eqn:Ec;
      [|discriminate].
    intros H. destruct (IH _ _ _ _ H) as [Hge Hs]. split; [lia|].
    replace (iterations e - n)%nat with (S (iterations e - S n)) by lia.
    now rewrite (steps_S _ _ _ _ _ _ _ _ Ec).
  - intros H; injection H as <-. simpl. now rewrite Nat.sub_diag.
Qed.

Lemma steps_pending cfg env k : forall n s tr s' tr',
  htif_in_valid s = true ->
  (forall j, (n <= j < n + k)%nat ->
             host_clk_edge (env j) = true -> host_in_ready (env j) = false) ->
  steps cfg env k n s tr = Ok (s', tr') ->
  exists ev,
    tr' = tr ++ ev /\
    filter is_recv ev = [] /\
    filter is_host_in ev =
      repeat (HostIn true (htif_in_bits s)) (gated_cycles env n k) /\
    htif_in_valid s' = true /\ htif_in_bits s' = htif_in_bits s.
Proof.
  induction k as [|k IH]; intros n s tr s' tr' Hv Hr Hs.
  - simpl in Hs. injection Hs as <- <-. exists []. rewrite app_nil_r.
    now repeat split.
  - destruct (steps_S_inv _ _ _ _ _ _ _ _ Hs) as (s1 & ev1 & Ec & Hs').
    destruct (cycle_pending _ _ _ _ _ Hv (Hr n ltac:(lia)) Ec)
      as (Hv1 & Hb1 & Hrecv & Hin).
    destruct (IH (S n) s1 (tr ++ ev1) s' tr' Hv1) as (ev & Ht & Hre & Hho & Hfv & Hfb);
      [intros j Hj; apply Hr; lia | exact Hs' |].
    exists (ev1 ++ ev). rewrite Ht, <- app_assoc. split; [reflexivity|].
    rewrite !filter_app, Hrecv, Hre, Hin, Hho, Hb1.
    split; [reflexivity|]. split; [|split; congruence].
    rewrite gated_cycles_S. destruct (host_clk_edge (env n)); reflexivity.
Qed.

(** C2. While a frame is pending and the hardware model does not assert
    inbound readiness, a gated iteration calls no [recv_nonblocking], keeps
    the buffered frame and its valid flag, and drives exactly that pair on
    the inbound wires; over any number of iterations of such a stretch, and
    so in every execution of the loop, the trace holds no receive and one
    identical presentation per gated iteration, and the buffer is
    unchanged at the end. *)
Theorem pending_frame_is_re_presented (s : State) :
  htif_in_valid s = true ->
  (forall inp, host_clk_edge inp = true -> host_in_ready inp = false ->
     host_exchange inp s =
     (s, HostIn true (htif_in_bits s)
           :: (if host_out_valid inp then [Send (host_out_bits inp)] else [])
           ++ [HostOutReady])) /\
  (forall cfg env k n tr s' tr',
     (forall j, (n <= j < n + k)%nat ->
                host_clk_edge (env j) = true -> host_in_ready (env j) = false) ->
     steps cfg env k n s tr = Ok (s', tr') ->
     exists ev,
       tr' = tr ++ ev /\
       filter is_recv ev = [] /\
       filter is_host_in ev =
         repeat (HostIn true (htif_in_bits s)) (gated_cycles env n k) /\
       htif_in_valid s' = true /\ htif_in_bits s' = htif_in_bits s) /\
  (forall cfg env fuel n tr e,
     (forall j, (n <= j < iterations e)%nat ->
                host_clk_edge (env j) = true -> host_in_ready (env j) = false) ->
     loop cfg env fuel n s tr = Ok (Some e) ->
     exists ev,
       trace e = tr ++ ev /\
       filter is_recv ev = [] /\
       filter is_host_in ev =
         repeat (HostIn true (htif_in_bits s))
                (gated_cycles env n (iterations e - n)) /\
       htif_in_valid (final e) = true /\
       htif_in_bits (final e) = htif_in_bits s).
Proof.
  intros Hv. split; [|split].
  - intros inp Hg Hn. unfold host_exchange. rewrite Hg, Hn, Hv. simpl.
    now rewrite Hv.
  - intros cfg env k n tr s' tr' Hr Hs. now apply (steps_pending cfg env k n s).
  - intros cfg env fuel n tr e Hr Hl.
    destruct (loop_is_steps _ _ _ _ _ _ _ Hl) as [Hge Hs].
    apply (steps_pending cfg env _ n s tr _ _ Hv); [|exact Hs].
    intros j Hj. apply Hr. lia.
Qed.

Lemma pending_frame_is_re_presented_witness :
  htif_in_valid
    (mkState 3 1 0 (mkTracker (CB.mk MAGIC_LEN [nop]) false false) true 9)
  = true /\
  exists s' tr',
    steps (sample_cfg 3) (fun _ => stalled_cycle) 2 1
          (mkState 3 1 0 (mkTracker (CB.mk MAGIC_LEN [nop]) false false) true 9)
          [] = Ok (s', tr') /\
    filter is_recv tr' = [] /\
    filter is_host_in tr' = [HostIn true 9; HostIn true 9].
Proof.
  split; [reflexivity|].
  destruct (pending_frame_is_re_presented
              (mkState 3 1 0 (mkTracker (CB.mk MAGIC_LEN [nop]) false false)
                       true 9) eq_refl)
    as (_ & Hsteps & _).
  eexists _, _. split; [vm_compute; reflexivity|].
  edestruct (Hsteps (sample_cfg 3) (fun _ => stalled_cycle) 2%nat 1%nat [])
    as (ev & Ht & Hrecv & Hin & _).
  - intros j _ _. reflexivity.
  - vm_compute. reflexivity.
  - simpl in Ht. subst ev. split; [exact Hrecv | exact Hin].
Defined.

(** ** An evaluation failure *)

Lemma without_throw_fields inp :
  getInst (without_throw inp) = getInst inp /\
  host_exchange (without_throw inp) = host_exchange inp.
Proof. split; reflexivity. Qed.

Lemma app_four_last {A} (a b c d : list A) (x : A) :
  a ++ b ++ c ++ d ++ [x] = (a ++ b ++ c ++ d) ++ [x].
Proof. now rewrite <- !app_assoc. Qed.

Lemma host_exchange_set_failure inp s :
  host_exchange inp (set_failure s) =
  (set_failure (fst (host_exchange inp s)), snd (host_exchange inp s)).
Proof.
  unfold host_exchange. destruct (host_clk_edge inp); [|reflexivity].
  simpl. destruct (host_in_ready inp || negb (htif_in_valid s)); reflexivity.
Qed.

(** The result of an iteration, spelled out. *)
Lemma cycle_explicit cfg inp s t1 :
  nextInst (getInst inp) (tracker s) = Ok t1 ->
  cycle cfg inp s =
  Ok (mkState
        (if clock_lo_throws inp then trace_count s else max_cycles s)
        (wrap64 ((if needs_reset t1 then 0 else trace_count s) + 1))
        (if clock_lo_throws inp then 1 else ret s)
        (mkTracker (insts t1) false false)
        (htif_in_valid (fst (host_exchange inp s)))
        (htif_in_bits (fst (host_exchange inp s))),
      drive_memory cfg
        ++ (if clock_lo_throws inp then [ClockLo; ErrorMessage] else [ClockLo])
        ++ tick_memory cfg
        ++ (snd (host_exchange inp s)
        ++ print_phase cfg s
        ++ ((if needs_reset t1 then [ResetNotice] else [])
            ++ (if needs_emit_cycle_count t1
                then [CycleCountNotice
                        (if needs_reset t1 then 0 else trace_count s)]
                else []))
        ++ dump_phase cfg
             (set_trace_count (if needs_reset t1 then 0 else trace_count s) s)
        ++ [ClockHi])).
Proof.
  intros Hn. rewrite cycle_eq. cbv zeta.
  destruct (host_exchange_keeps inp s) as (A & B & C & D). cbv zeta in A, B, C, D.
  unfold eval_phase. destruct (clock_lo_throws inp); cbn [fst snd].
  - rewrite host_exchange_set_failure. cbn [fst snd].
    rewrite (observe_phase_ok _ (set_failure _) t1) by (simpl; now rewrite D).
    cbn [bind]. unfold commit_phase, print_phase, dump_phase. cbn [fst snd].
    simpl trace_count. rewrite B.
    destruct (needs_reset t1);
      unfold set_trace_count, set_tracker, set_failure;
      cbn [max_cycles trace_count ret tracker htif_in_valid htif_in_bits app];
      rewrite ?A, ?B, ?C; reflexivity.
  - rewrite (observe_phase_ok _ _ t1) by now rewrite D.
    cbn [bind]. unfold commit_phase, print_phase, dump_phase. cbn [fst snd].
    rewrite B.
    destruct (needs_reset t1);
      unfold set_trace_count, set_tracker;
      cbn [max_cycles trace_count ret tracker htif_in_valid htif_in_bits app];
      rewrite ?A, ?B, ?C; reflexivity.
Qed.

(** ** Runs that end on the budget *)

Lemma finish_timeout cfg s :
  trace_count s = max_cycles s ->
  finish cfg 0 s = (2, FailedTimeout (trace_count s)).
Proof. intros H. unfold finish. simpl. now rewrite H, Z.eqb_refl. Qed.

Lemma main_of_loop cfg env code fuel e :
  loop cfg env fuel 0 (initial cfg) [] = Ok (Some e) ->
  main cfg env code fuel =
  Ok (Some (mkOutcome (fst (finish cfg code (final e)))
              (snd (finish cfg code (final e))) e)).
Proof.
  intros H. unfold main. rewrite H. simpl.
  now destruct (finish cfg code (final e)).
Qed.

(** C6. With a budget of 100 cycles, a transport that does not report
    completion, no evaluation failure, no start event and a zero transport
    status, the loop is left after exactly 100 iterations with the cycle
    counter at 100, and [main] returns 2 with the timeout message. *)
Theorem timeout_at_budget_100 (cfg : Config) (env : nat -> CycleIn)
    (fuel : nat) :
  max_cycles_arg cfg = 100 ->
  (forall n, (n < 100)%nat ->
     htif_done (env n) = false /\ clock_lo_throws (env n) = false /\
     start_at env n = Ok false) ->
  (100 <= fuel)%nat ->
  exists o,
    main cfg env 0 fuel = Ok (Some o) /\
    status o = 2 /\ message o = FailedTimeout 100 /\
    trace_count (final (at_exit o)) = 100 /\
    iterations (at_exit o) = 100%nat.
Proof.
  intros Hm Hq Hf.
  destruct (loop_quiet cfg env 100 0 (initial cfg) [] (fuel - 100))
    as (s' & tr' & Hl & _ & Hc & Hmax & Hr);
    try reflexivity; simpl; try lia.
  { exact Hq. }
  replace (100 + (fuel - 100))%nat with fuel in Hl by lia.
  simpl in Hc, Hmax. rewrite Hm in Hmax.
  assert (Hexit : loop_cond (env 100%nat) s' = false).
  { unfold loop_cond. rewrite Hc, Hmax. simpl. now rewrite andb_false_r. }
  rewrite (loop_exit _ _ _ _ _ _ Hexit) in Hl.
  eexists. split; [apply (main_of_loop _ _ _ _ _ Hl)|].
  simpl. rewrite finish_timeout by congruence. simpl. rewrite Hc.
  now repeat split.
Qed.

Lemma tracker_at_quiet n :
  tracker_at (fun _ => quiet_cycle nop) (S n)
  = Ok (mkTracker (CB.mk MAGIC_LEN [nop]) false false).
Proof.
  induction n as [|n IH]; [reflexivity|].
  change (tracker_at (fun _ => quiet_cycle nop) (S (S n)))
    with (t <- tracker_at (fun _ => quiet_cycle nop) (S n) ;;
          '(_, _, t') <- watch (getInst (quiet_cycle nop)) t ;; Ok t').
  rewrite IH. reflexivity.
Qed.

Lemma start_at_quiet n : start_at (fun _ => quiet_cycle nop) n = Ok false.
Proof.
  destruct n as [|n]; [reflexivity|].
  unfold start_at. rewrite tracker_at_quiet. reflexivity.
Qed.

Lemma timeout_at_budget_100_witness :
  exists o,
    main (sample_cfg 100) (fun _ => quiet_cycle nop) 0 100 = Ok (Some o) /\
    status o = 2 /\ trace_count (final (at_exit o)) = 100.
Proof.
  destruct (timeout_at_budget_100 (sample_cfg 100) (fun _ => quiet_cycle nop)
              100 eq_refl)
    as (o & Hmain & Hs & _ & Hc & _).
  - intros n _. repeat split. apply start_at_quiet.
  - lia.
  - exists o. repeat split; assumption.
Defined.

(** An iteration that consumes a start event, inside the loop. *)
Lemma loop_reset_step cfg env n s tr fuel :
  tracker_at env n = Ok (tracker s) ->
  start_at env n = Ok true ->
  htif_done (env n) = false -> clock_lo_throws (env n) = false ->
  ret s = 0 -> trace_count s < max_cycles s ->
  exists s' tr',
    loop cfg env (S fuel) n s tr = loop cfg env fuel (S n) s' tr' /\
    tracker_at env (S n) = Ok (tracker s') /\
    trace_count s' = 1 /\ max_cycles s' = max_cycles s /\ ret s' = 0.
Proof.
  intros Ht Hs Hd Hn Hr Hlt.
  destruct (start_at_watch _ _ _ _ Ht Hs) as (b & t3 & Hw & Ht3).
  destruct (cycle_ok cfg _ _ _ _ _ Hw) as (s' & ev & Hc & Htk & Hcnt & Hmax & Hret).
  exists s', (tr ++ ev).
  unfold eval_phase in Hmax, Hret. rewrite Hn in Hmax, Hret. simpl in Hmax, Hret.
  change (wrap64 (0 + 1)) with 1 in Hcnt.
  split; [|repeat split; congruence].
  apply loop_step; [|exact Hc].
  unfold loop_cond. rewrite Hd, Hr. simpl. rewrite andb_true_r.
  now apply Z.ltb_lt.
Qed.

Lemma finish_timeout_iff cfg code s :
  (exists c, snd (finish cfg code s) = FailedTimeout c) <->
  code = 0 /\ trace_count s = max_cycles s.
Proof.
  unfold finish.
  destruct (Z.eqb_spec code 0) as [->|Hc]; simpl.
  - destruct (Z.eqb_spec (trace_count s) (max_cycles s)) as [E|E]; simpl.
    + split; [now split | intros _; now eexists].
    + split; [|intros [_ H]; contradiction].
      intros [c H]. destruct (log cfg || print_cycles cfg); discriminate.
  - split; [intros [c H]; discriminate | intros [H _]; contradiction].
Qed.

(** C9. The budget is compared with the cycle counter, which a start event
    sets back to 0: when iteration [k] (counted from 0) consumes the only
    start event of a run that neither completes nor fails, the loop runs
    [k + m] iterations for a budget of [m] and is left with the counter at
    [m]; [main] then reports the timeout if the transport status is zero.
    The timeout message is printed exactly when that status is zero and
    the counter equals the budget after the loop. *)
Theorem budget_counts_from_last_reset (cfg : Config) (env : nat -> CycleIn)
    (k m fuel : nat) (exit_code : Z) :
  max_cycles_arg cfg = Z.of_nat m -> Z.of_nat m < 2 ^ 64 -> (k < m)%nat ->
  (forall n, (n < k + m)%nat ->
     htif_done (env n) = false /\ clock_lo_throws (env n) = false) ->
  start_at env k = Ok true ->
  (forall n, (n < k + m)%nat -> n <> k -> start_at env n = Ok false) ->
  (k + m <= fuel)%nat ->
  (exists o,
     main cfg env exit_code fuel = Ok (Some o) /\
     iterations (at_exit o) = (k + m)%nat /\
     trace_count (final (at_exit o)) = Z.of_nat m /\
     max_cycles (final (at_exit o)) = Z.of_nat m /\
     (exit_code = 0 ->
      status o = 2 /\ message o = FailedTimeout (Z.of_nat m))) /\
  (forall code s,
     (exists c, snd (finish cfg code s) = FailedTimeout c) <->
     code = 0 /\ trace_count s = max_cycles s).
Proof.
  intros Hm Hb Hk Hrun Hstart Hq Hf.
  split; [|intros; apply finish_timeout_iff].
  (* the iterations before the start event *)
  destruct (loop_quiet cfg env k 0 (initial cfg) []
              (S ((m - 1) + (fuel - (k + m)))))
    as (s1 & tr1 & Hl1 & Ht1 & Hc1 & Hmax1 & Hr1);
    try reflexivity; simpl; try lia.
  { intros j Hj. destruct (Hrun j) as [A B]; [lia|].
    repeat split; try assumption. apply Hq; lia. }
  simpl in Hc1, Hmax1, Ht1. change (0 + k)%nat with k in Hl1.
  (* the iteration of the start event *)
  destruct (Hrun k) as [Hdk Hnk]; [lia|].
  destruct (loop_reset_step cfg env k s1 tr1 ((m - 1) + (fuel - (k + m)))
              Ht1 Hstart Hdk Hnk Hr1)
    as (s2 & tr2 & Hl2 & Ht2 & Hc2 & Hmax2 & Hr2); [lia|].
  (* the iterations after it *)
  destruct (loop_quiet cfg env (m - 1) (S k) s2 tr2 (fuel - (k + m)) Ht2 Hr2)
    as (s3 & tr3 & Hl3 & _ & Hc3 & Hmax3 & Hr3); try lia.
  { intros j Hj. destruct (Hrun (S k + j)%nat) as [A B]; [lia|].
    repeat split; try assumption. apply Hq; lia. }
  replace (S k + (m - 1))%nat with (k + m)%nat in Hl3 by lia.
  assert (Hexit : loop_cond (env (k + m)%nat) s3 = false).
  { unfold loop_cond.
    replace (trace_count s3 <? max_cycles s3) with false
      by (symmetry; apply Z.ltb_ge; lia).
    now rewrite andb_false_r. }
  rewrite (loop_exit _ _ _ _ _ _ Hexit) in Hl3.
  assert (Hloop : loop cfg env fuel 0 (initial cfg) [] =
                  Ok (Some (mkExit (k + m) s3 tr3))).
  { replace fuel with (k + S ((m - 1) + (fuel - (k + m))))%nat at 1 by lia.
    now rewrite Hl1, Hl2, Hl3. }
  eexists. split; [apply (main_of_loop _ _ _ _ _ Hloop)|].
  simpl. split; [reflexivity|]. split; [lia|]. split; [lia|].
  intros ->. rewrite finish_timeout by lia. simpl.
  split; [reflexivity | f_equal; lia].
Qed.

Lemma budget_counts_from_last_reset_witness :
  start_at start_env 4 = Ok true /\
  exists o,
    main (sample_cfg 6) start_env 0 10 = Ok (Some o) /\
    iterations (at_exit o) = 10%nat /\
    trace_count (final (at_exit o)) = 6 /\ status o = 2.
Proof.
  split; [reflexivity|].
  destruct (budget_counts_from_last_reset (sample_cfg 6) start_env 4 6 10 0)
    as [(o & Hmain & Hit & Hc & _ & Hst) _].
  - reflexivity.
  - reflexivity.
  - lia.
  - intros n _. unfold start_env, env_of.
    do 6 (destruct n as [|n]; [split; reflexivity|]). split; reflexivity.
  - reflexivity.
  - intros n Hn Hne.
    do 10 (destruct n as [|n]; [first [reflexivity | contradiction]|]). lia.
  - lia.
  - exists o. split; [exact Hmain|]. split; [exact Hit|].
    split; [exact Hc | apply Hst; reflexivity].
Defined.

(** ** Failure and transport status together *)

Lemma cycle_nextInst cfg inp s s' ev :
  cycle cfg inp s = Ok (s', ev) ->
  exists t1, nextInst (getInst inp) (tracker s) = Ok t1.
Proof.
  destruct (nextInst (getInst inp) (tracker s)) as [t1|f] eqn:E;
    [now exists t1|].
  rewrite cycle_eq. cbv zeta.
  rewrite observe_phase_eq, watch_eq.
  destruct (host_exchange_keeps inp (fst (eval_phase inp s))) as (_ & _ & _ & D).
  destruct (eval_phase_keeps inp s) as (_ & F & _).
  cbv zeta in D, F. rewrite D, F, E. discriminate.
Qed.

(** The error message is printed by a failing evaluation only, which
    leaves the return value 1. *)
Lemma cycle_errors cfg inp s s' ev :
  cycle cfg inp s = Ok (s', ev) ->
  filter is_error ev = (if clock_lo_throws inp then [ErrorMessage] else []) /\
  ret s' = (if clock_lo_throws inp then 1 else ret s).
Proof.
  intros Hc. destruct (cycle_nextInst _ _ _ _ _ Hc) as (t1 & Hn).
  rewrite (cycle_explicit cfg inp s t1 Hn) in Hc. injection Hc as <- <-.
  split; [|reflexivity].
  rewrite !filter_app. unfold drive_memory, tick_memory.
  rewrite !(filter_map_none is_error) by reflexivity.
  unfold host_exchange, print_phase, dump_phase.
  case_ifs; reflexivity.
Qed.

Lemma in_error_filter ev :
  In ErrorMessage ev <-> filter is_error ev <> [].
Proof.
  split.
  - intros H E.
    assert (Hin : In ErrorMessage (filter is_error ev))
      by (apply filter_In; now split).
    rewrite E in Hin. destruct Hin.
  - intros H. destruct (filter is_error ev) as [|x l] eqn:E; [congruence|].
    assert (Hx : In x (filter is_error ev)) by (rewrite E; now left).
    apply filter_In in Hx. destruct Hx as [Hx Hp].
    destruct x; try discriminate. exact Hx.
Qed.

Lemma loop_error_ret cfg env fuel : forall n s tr e,
  loop cfg env fuel n s tr = Ok (Some e) ->
  (In ErrorMessage tr -> ret s = 1) ->
  In ErrorMessage (trace e) -> ret (final e) = 1.
Proof.
  induction fuel as [|fuel IH]; intros n s tr e; simpl;
    destruct (loop_cond (env n) s).
  - discriminate.
  - intros H; injection H as <-. simpl. auto.
  - unfold bind. destruct (cycle cfg (env n) s) as [[s1 ev]|] eqn:Ec;
      [|discriminate].
    intros Hl Hinv. apply (IH _ _ _ _ Hl).
    destruct (cycle_errors _ _ _ _ _ Ec) as [Hf Hr].
    intros Hin. apply in_app_iff in Hin. rewrite Hr.
    destruct (clock_lo_throws (env n)); [reflexivity|].
    destruct Hin as [Hin|Hin]; [now apply Hinv|].
    apply in_error_filter in Hin. contradiction.
  - intros H; injection H as <-. simpl. auto.
Qed.

Lemma loop_fails_once cfg env n s tr fuel t1 :
  loop_cond (env n) s = true ->
  clock_lo_throws (env n) = true ->
  nextInst (getInst (env n)) (tracker s) = Ok t1 ->
  exists s' ev,
    loop cfg env (S fuel) n s tr = Ok (Some (mkExit (S n) s' (tr ++ ev))) /\
    ret s' = 1 /\ In ErrorMessage ev.
Proof.
  intros Hc Ht Hn.
  pose proof (cycle_explicit cfg (env n) s t1 Hn) as Hcy. rewrite Ht in Hcy.
  eexists _, _. split; [|split].
  - rewrite (loop_step _ _ _ _ _ _ _ _ Hc Hcy).
    apply loop_exit. unfold loop_cond. simpl. now rewrite andb_false_r.
  - reflexivity.
  - apply in_app_iff. right. simpl. right. now left.
Qed.

(** C10. When the transport reports a non-zero status, [main] returns that
    status whatever the loop left in [ret]; in particular every run whose
    trace holds the error message of a failed evaluation ends with [ret]
    equal to 1 and still returns the transport's status; and a run that
    reaches an iteration in which [clock_lo] throws does end, with that
    iteration as its last, and returns the transport's status. *)
Theorem transport_status_overrides_failure (cfg : Config) (exit_code : Z) :
  exit_code <> 0 ->
  (forall s, finish cfg exit_code s
             = (exit_code, FailedCode exit_code (trace_count s))) /\
  (forall env fuel o,
     main cfg env exit_code fuel = Ok (Some o) ->
     In ErrorMessage (trace (at_exit o)) ->
     ret (final (at_exit o)) = 1 /\ status o = exit_code) /\
  (forall env n fuel s tr t1,
     steps cfg env n 0 (initial cfg) [] = Ok (s, tr) ->
     (forall j sj trj, (j < n)%nat ->
        steps cfg env j 0 (initial cfg) [] = Ok (sj, trj) ->
        loop_cond (env j) sj = true) ->
     loop_cond (env n) s = true ->
     clock_lo_throws (env n) = true ->
     nextInst (getInst (env n)) (tracker s) = Ok t1 ->
     exists o,
       main cfg env exit_code (n + S fuel) = Ok (Some o) /\
       iterations (at_exit o) = S n /\
       In ErrorMessage (trace (at_exit o)) /\
       ret (final (at_exit o)) = 1 /\ status o = exit_code).
Proof.
  intros Hne.
  assert (Hfin : forall s, finish cfg exit_code s
                           = (exit_code, FailedCode exit_code (trace_count s))).
  { intros s. unfold finish. apply Z.eqb_neq in Hne. now rewrite Hne. }
  split; [exact Hfin|]. split.
  - intros env fuel o Hmain Hin. unfold main, bind in Hmain.
    destruct (loop cfg env fuel 0 (initial cfg) []) as [[e|]|] eqn:El;
      try discriminate.
    rewrite Hfin in Hmain. injection Hmain as <-. simpl in *.
    split; [|reflexivity].
    apply (loop_error_ret _ _ _ _ _ _ _ El); [intros []|exact Hin].
  - intros env n fuel s tr t1 Hs Hconds Hc Ht Hn.
    destruct (loop_fails_once cfg env n s tr fuel t1 Hc Ht Hn)
      as (s' & ev & Hl & Hr & Hin).
    assert (Hloop : loop cfg env (n + S fuel) 0 (initial cfg) [] =
                    Ok (Some (mkExit (S n) s' (tr ++ ev)))).
    { rewrite (loop_steps cfg env n (S fuel) 0 (initial cfg) [] s tr Hs Hconds).
      exact Hl. }
    eexists. split; [apply (main_of_loop _ _ _ _ _ Hloop)|].
    simpl. rewrite Hfin. simpl. repeat split; try assumption.
    apply in_app_iff. now right.
Qed.

Lemma transport_status_overrides_failure_witness :
  3 <> 0 /\
  exists o,
    main (sample_cfg 100)
         (env_of [quiet_cycle nop; failing_cycle] (quiet_cycle nop))
         3 5 = Ok (Some o) /\
    In ErrorMessage (trace (at_exit o)) /\
    ret (final (at_exit o)) = 1 /\ status o = 3.
Proof.
  split; [discriminate|].
  destruct (transport_status_overrides_failure (sample_cfg 100) 3)
    as (_ & Hrun & _); [discriminate|].
  let r := eval vm_compute in
    (main (sample_cfg 100)
          (env_of [quiet_cycle nop; failing_cycle] (quiet_cycle nop)) 3 5) in
  match r with
  | Ok (Some ?o) =>
      assert (Hmain : main (sample_cfg 100)
                (env_of [quiet_cycle nop; failing_cycle] (quiet_cycle nop))
                3 5 = Ok (Some o)) by (vm_compute; reflexivity);
      assert (Hin : In ErrorMessage (trace (at_exit o)))
        by (cbn [trace at_exit In]; tauto);
      exists o; split; [exact Hmain|]; split; [exact Hin|];
      exact (Hrun _ _ o Hmain Hin)
  end.
Defined.

(** ** Sample runs, evaluated *)

(** The third start word held for two cycles, on a tracker that has seen
    one other instruction: one start event, no stop event. *)
Example start_sequence_with_repeat :
  watch_all [MAGIC_START0; MAGIC_START1; MAGIC_START2; MAGIC_START2;
             MAGIC_START3]
            (mkTracker (CB.mk MAGIC_LEN [nop]) false false)
  = Ok (1%nat, 0%nat, mkTracker (CB.mk MAGIC_LEN start_pattern) false false).
Proof. vm_compute. reflexivity. Qed.

(** The start sequence followed by its last three words: the fourth word
    equals the first, so a second match completes three pushes after the
    first one, and each match is one event. *)
Example overlapping_start_sequences :
  watch_all (start_pattern ++ [MAGIC_START1; MAGIC_START2; MAGIC_START3])
            (mkTracker (CB.mk MAGIC_LEN [nop]) false false)
  = Ok (2%nat, 0%nat, mkTracker (CB.mk MAGIC_LEN start_pattern) false false).
Proof. vm_compute. reflexivity. Qed.

(** The push that completes each sequence, on a full window. *)
Example start_completed_by_push :
  let t := mkTracker (CB.mk MAGIC_LEN [nop; MAGIC_START0; MAGIC_START1;
                                       MAGIC_START2]) false false in
  is_new MAGIC_START3 t = true /\
  CB.items (CB.push_back MAGIC_START3 (insts t)) = start_pattern /\
  watch MAGIC_START3 t
  = Ok (true, false, mkTracker (CB.mk MAGIC_LEN start_pattern) false false).
Proof. repeat split. Qed.

Example stop_completed_by_push :
  let t := mkTracker (CB.mk MAGIC_LEN [nop; MAGIC_STOP0; MAGIC_STOP1;
                                       MAGIC_STOP2]) false false in
  is_new MAGIC_STOP3 t = true /\
  CB.items (CB.push_back MAGIC_STOP3 (insts t)) = stop_pattern /\
  watch MAGIC_STOP3 t
  = Ok (false, true, mkTracker (CB.mk MAGIC_LEN stop_pattern) false false).
Proof. repeat split. Qed.

(** * Further properties of the tracker *)

Lemma lastn_all {A} n (l : list A) : (length l <= n)%nat -> lastn n l = l.
Proof.
  intros H. unfold lastn. replace (length l - n)%nat with 0%nat by lia.
  reflexivity.
Qed.

Lemma lastn_app_long {A} n (a b : list A) :
  (n <= length b)%nat -> lastn n (a ++ b) = lastn n b.
Proof.
  intros H. unfold lastn. rewrite length_app, skipn_app.
  replace (length a + length b - n - length a)%nat with (length b - n)%nat
    by lia.
  rewrite skipn_all2 by lia. reflexivity.
Qed.

Lemma lastn_length {A} n (l : list A) :
  length (lastn n l) = Nat.min n (length l).
Proof. unfold lastn. rewrite length_skipn. lia. Qed.

Lemma lastn_app_lastn {A} n (l c : list A) :
  lastn n (lastn n l ++ c) = lastn n (l ++ c).
Proof.
  destruct (Nat.le_gt_cases (length l) n) as [H|H].
  - now rewrite (lastn_all n l H).
  - rewrite <- (firstn_skipn (length l - n) l) at 2.
    fold (lastn n l). rewrite <- app_assoc.
    symmetry. apply lastn_app_long.
    rewrite length_app, lastn_length. lia.
Qed.

Lemma push_back_lastn x b :
  CB.capacity b = MAGIC_LEN -> (CB.size b <= MAGIC_LEN)%nat ->
  CB.items (CB.push_back x b) = lastn MAGIC_LEN (CB.items b ++ [x]).
Proof.
  intros Hc Hs. destruct (push_back_wf x b Hc Hs) as (_ & Hlt & Heq).
  unfold CB.size, MAGIC_LEN in *.
  destruct (Nat.eq_dec (length (CB.items b)) 4) as [E|E].
  - rewrite (Heq E). unfold lastn. rewrite length_app. simpl.
    replace (length (CB.items b) + 1 - 4)%nat with 1%nat by lia.
    destruct (CB.items b); [discriminate | reflexivity].
  - rewrite Hlt by lia. symmetry. apply lastn_all.
    rewrite length_app. simpl. lia.
Qed.

Lemma is_new_back_opt inst t :
  is_new inst t = match back_opt t with
                  | Some p => negb (Z.eqb inst p)
                  | None => true
                  end.
Proof. unfold is_new, back_opt. now destruct (CB.empty (insts t)). Qed.

Lemma back_opt_after inst t t1 :
  nextInst inst t = Ok t1 -> back_opt t1 = Some inst.
Proof.
  intros H. pose proof (nextInst_then_old _ _ _ H) as Ho.
  rewrite is_new_back_opt in Ho.
  destruct (back_opt t1) as [p|]; [|discriminate].
  apply negb_false_iff, Z.eqb_eq in Ho. now subst.
Qed.

(** ** Repeated observations *)






(** X1. Fed to a window of capacity [MAGIC_LEN], a list of observations
    whose calls are all in range leaves the window equal to the last
    [MAGIC_LEN] entries of what it held followed by the observations with
    every run of equal consecutive values kept once; from a new tracker,
    the last four distinct-run values of the whole history. *)
Theorem window_is_last_four_distinct (obs : list Z) (t t1 : MagicTracker) :
  wf t ->
  feed obs t = Ok t1 ->
  wf t1 /\
  CB.items (insts t1)
  = lastn MAGIC_LEN (CB.items (insts t) ++ collapse (back_opt t) obs).
Proof.
  revert t. induction obs as [|x rest IH]; intros t Hw; simpl.
  - intros H; injection H as <-. split; [exact Hw|].
    rewrite app_nil_r. symmetry. apply lastn_all. apply Hw.
  - unfold bind. destruct (nextInst x t) as [t0|] eqn:E; [|discriminate].
    intros Hf. pose proof (wf_nextInst _ _ _ Hw E) as Hw0.
    destruct (IH t0 Hw0 Hf) as [Hw1 Hi]. split; [exact Hw1|].
    rewrite Hi, (back_opt_after _ _ _ E).
    pose proof (is_new_back_opt x t) as Hn.
    destruct (nextInst_inv _ _ _ E) as [[Hold ->]|[Hnew (a & b & _ & _ & ->)]].
    + rewrite Hold in Hn. destruct (back_opt t) as [p|] eqn:Eb; [|discriminate].
      symmetry in Hn. apply negb_false_iff in Hn. rewrite Hn.
      apply Z.eqb_eq in Hn. now subst.
    + simpl insts. destruct Hw as [Hc Hs].
      rewrite (push_back_lastn x _ Hc Hs), lastn_app_lastn, <- app_assoc.
      simpl. rewrite Hnew in Hn.
      destruct (back_opt t) as [p|]; [|reflexivity].
      symmetry in Hn. apply negb_true_iff in Hn. now rewrite Hn.
Qed.

Lemma window_is_last_four_distinct_witness :
  feed [5; 5; 6; 7; 7; 7; 8; 9; 9] new_tracker
  = Ok (mkTracker (CB.mk MAGIC_LEN [6; 7; 8; 9]) false false) /\
  CB.items (CB.mk MAGIC_LEN [6; 7; 8; 9])
  = lastn MAGIC_LEN (collapse None [5; 5; 6; 7; 7; 7; 8; 9; 9]).
Proof.
  split; [reflexivity|].
  exact (proj2 (window_is_last_four_distinct [5; 5; 6; 7; 7; 7; 8; 9; 9]
                  new_tracker _ wf_new_tracker eq_refl)).
Defined.

Lemma nextInst_keeps_flags inst t t1 :
  nextInst inst t = Ok t1 ->
  (needs_reset t = true -> needs_reset t1 = true) /\
  (needs_emit_cycle_count t = true -> needs_emit_cycle_count t1 = true).
Proof.
  intros H.
  destruct (nextInst_inv _ _ _ H) as [[_ ->]|[_ (a & b & _ & _ & ->)]];
    [now split|].
  simpl. split; intros ->; [now destruct a | now destruct b].
Qed.

(** X2. An event that was raised and not yet consumed survives every
    further observation, whatever is observed; consuming one event leaves
    the other event and the window as they are, and the same query made
    again answers no: events are held, not counted. *)
Theorem pending_event_is_held (obs : list Z) (t t1 : MagicTracker) :
  feed obs t = Ok t1 ->
  (needs_reset t = true -> fst (hitStart t1) = true) /\
  (needs_emit_cycle_count t = true -> fst (hitStop t1) = true) /\
  fst (hitStart (snd (hitStart t1))) = false /\
  fst (hitStop (snd (hitStop t1))) = false /\
  fst (hitStop (snd (hitStart t1))) = needs_emit_cycle_count t1 /\
  fst (hitStart (snd (hitStop t1))) = needs_reset t1 /\
  insts (snd (hitStart t1)) = insts t1 /\
  insts (snd (hitStop t1)) = insts t1.
Proof.
  revert t. induction obs as [|x rest IH]; intros t; simpl.
  - intros H; injection H as <-. unfold hitStart, hitStop.
    destruct t as [w [|] [|]]; simpl; repeat split; congruence.
  - unfold bind. destruct (nextInst x t) as [t0|] eqn:E; [|discriminate].
    intros Hf. destruct (nextInst_keeps_flags _ _ _ E) as [K1 K2].
    destruct (IH t0 Hf) as (A & B & C).
    split; [auto|]. split; [auto | exact C].
Qed.

Lemma pending_event_is_held_witness :
  feed (start_pattern ++ [nop; MAGIC_START1; MAGIC_START2; MAGIC_START3; nop])
       (mkTracker (CB.mk MAGIC_LEN [nop]) false false)
  = Ok (mkTracker (CB.mk MAGIC_LEN [MAGIC_START1; MAGIC_START2;
                                    MAGIC_START3; nop]) true false) /\
  fst (hitStart (mkTracker (CB.mk MAGIC_LEN [MAGIC_START1; MAGIC_START2;
                                             MAGIC_START3; nop]) true false))
  = true.
Proof.
  split; [reflexivity|].
  refine (proj1 (pending_event_is_held [nop]
            (mkTracker (CB.mk MAGIC_LEN [MAGIC_START0; MAGIC_START1;
                                         MAGIC_START2; MAGIC_START3])
                       true false) _ eq_refl) eq_refl).
Defined.

Lemma tracker_at_size env n t :
  tracker_at env n = Ok t -> (CB.size (insts t) <= n)%nat.
Proof.
  revert t. induction n as [|n IH]; intros t; simpl.
  - intros H; injection H as <-. unfold CB.size. simpl. lia.
  - unfold bind. destruct (tracker_at env n) as [t0|] eqn:Et; [|discriminate].
    destruct (tracker_at_inv _ _ _ Et) as [[Hc Hs] _].
    specialize (IH t0 eq_refl).
    rewrite watch_eq. unfold bind.
    destruct (nextInst (getInst (env n)) t0) as [t1|] eqn:E; [|discriminate].
    intros H; injection H as <-. simpl.
    destruct (nextInst_inv _ _ _ E) as [[_ ->]|[_ (a & b & _ & _ & ->)]];
      [lia|].
    simpl. rewrite push_back_size by assumption. lia.
Qed.

Lemma watch_event_needs_full_window inst t a b t3 :
  wf t -> idle t -> watch inst t = Ok (a, b, t3) ->
  a || b = true ->
  (3 <= CB.size (insts t))%nat /\ a && b = false.
Proof.
  intros Hw [H1 H2]. rewrite watch_eq. unfold bind.
  destruct (nextInst inst t) as [t1|] eqn:E; [|discriminate].
  intros H; injection H as <- <- <-. intros Hab.
  destruct Hw as [Hc Hs].
  assert (Hsz : forall pat, length pat = 4%nat ->
                  CB.items (insts t1) = pat -> is_new inst t = true ->
                  (3 <= CB.size (insts t))%nat).
  { intros pat Hl Hp Hn.
    destruct (nextInst_inv _ _ _ E) as [[C _]|[_ (a & b & _ & _ & ->)]];
      [congruence|].
    simpl in Hp. pose proof (push_back_size inst (insts t) Hc Hs) as Hps.
    unfold CB.size in Hps at 1. rewrite Hp, Hl in Hps.
    unfold MAGIC_LEN in Hps. lia. }
  destruct (needs_reset t1) eqn:E1; destruct (needs_emit_cycle_count t1) eqn:E2;
    try discriminate.
  - destruct (needs_reset_raised _ _ _ (conj Hc Hs) H1 E E1) as [_ P1].
    destruct (needs_emit_raised _ _ _ (conj Hc Hs) H2 E E2) as [_ P2].
    rewrite P1 in P2. discriminate.
  - destruct (needs_reset_raised _ _ _ (conj Hc Hs) H1 E E1) as [Hn P1].
    split; [now apply (Hsz start_pattern) | reflexivity].
  - destruct (needs_emit_raised _ _ _ (conj Hc Hs) H2 E E2) as [Hn P2].
    split; [now apply (Hsz stop_pattern) | reflexivity].
Qed.

Lemma tracker_at_primed env n t :
  tracker_at env (S n) = Ok t -> primed t.
Proof.
  revert t. induction n as [|n IH]; intros t.
  - simpl. rewrite watch_eq. unfold bind.
    destruct (nextInst (getInst (env 0%nat)) new_tracker) as [t1|] eqn:E;
      [|discriminate].
    intros H; injection H as <-.
    destruct (Z.eq_dec (getInst (env 0%nat)) MAGIC_START0) as [H0|H0];
      [rewrite H0 in E; discriminate|].
    destruct (Z.eq_dec (getInst (env 0%nat)) MAGIC_STOP0) as [H1|H1];
      [rewrite H1 in E; discriminate|].
    rewrite (first_nextInst _ H0 H1) in E. injection E as <-.
    right. now exists (getInst (env 0%nat)), [].
  - change (tracker_at env (S (S n)))
      with (t0 <- tracker_at env (S n) ;;
            '(_, _, t') <- watch (getInst (env (S n))) t0 ;; Ok t').
    unfold bind. destruct (tracker_at env (S n)) as [t0|] eqn:Et;
      [|discriminate].
    destruct (tracker_at_inv _ _ _ Et) as [Hw _].
    rewrite watch_eq. unfold bind.
    destruct (primed_nextInst (getInst (env (S n))) t0 Hw (IH t0 eq_refl))
      as (t1 & -> & _ & Hp).
    intros H; injection H as <-. exact Hp.
Qed.

(** An iteration whose tracker calls are in range consumes an event only
    from the fifth iteration on, and never both events. *)
Lemma event_needs_primed_window (env : nat -> CycleIn) (n : nat)
    (a b : bool) :
  start_at env n = Ok a -> stop_at env n = Ok b ->
  a || b = true ->
  (4 <= n)%nat /\ a && b = false.
Proof.
  unfold start_at, stop_at.
  destruct (tracker_at env n) as [t|] eqn:Et; [|discriminate].
  cbn [bind].
  destruct (watch (getInst (env n)) t) as [[[a' b'] t3]|] eqn:Ew;
    [|discriminate].
  intros H1 H2. injection H1 as ->. injection H2 as ->. intros Hab.
  destruct (tracker_at_inv _ _ _ Et) as [Hw Hi].
  destruct (watch_event_needs_full_window _ _ _ _ _ Hw Hi Ew Hab) as [Hs Hx].
  pose proof (tracker_at_size _ _ _ Et) as Hsz.
  split; [|exact Hx].
  destruct (Nat.eq_dec n 3) as [->|Hn]; [|lia]. exfalso.
  (* three entries, the fourth push completes a sequence: the oldest entry
     is the first word of that sequence, which a primed window excludes *)
  assert (H3 : CB.size (insts t) = 3%nat) by lia.
  destruct (tracker_at_primed _ _ _ Et) as [Hf|(x & rest & Hx0 & Hx1 & Hx2)];
    [unfold MAGIC_LEN in Hf; lia|].
  rewrite watch_eq in Ew. unfold bind in Ew.
  destruct (nextInst (getInst (env 3%nat)) t) as [t1|] eqn:E; [|discriminate].
  injection Ew as <- <- <-. destruct Hi as [I1 I2]. destruct Hw as [Hc Hsize].
  destruct (push_back_wf (getInst (env 3%nat)) (insts t) Hc Hsize)
    as (_ & Hlt & _).
  assert (Hitems : forall pat, CB.items (insts t1) = pat ->
                     is_new (getInst (env 3%nat)) t = true -> hd 0 pat = x).
  { intros pat Hp Hnew.
    destruct (nextInst_inv _ _ _ E) as [[C _]|[_ (a & b & _ & _ & ->)]];
      [congruence|].
    simpl in Hp. rewrite Hlt in Hp by (unfold MAGIC_LEN; lia).
    rewrite Hx0 in Hp. now subst pat. }
  destruct (needs_reset t1) eqn:E1.
  - destruct (needs_reset_raised _ _ _ (conj Hc Hsize) I1 E E1) as [Hn P1].
    apply Hx1. symmetry. exact (Hitems _ P1 Hn).
  - destruct (needs_emit_cycle_count t1) eqn:E2; [|discriminate].
    destruct (needs_emit_raised _ _ _ (conj Hc Hsize) I2 E E2) as [Hn P2].
    apply Hx2. symmetry. exact (Hitems _ P2 Hn).
Qed.

(** When the first instruction retired begins neither sequence, every
    call of the tracker in the run is in range. *)
Lemma tracker_at_total env :
  getInst (env 0%nat) <> MAGIC_START0 ->
  getInst (env 0%nat) <> MAGIC_STOP0 ->
  forall n, exists t,
    tracker_at env n = Ok t /\ wf t /\
    (n = 0%nat /\ t = new_tracker \/ primed t).
Proof.
  intros H1 H2. induction n as [|n (t & Et & Hw & Hp)].
  - exists new_tracker. split; [reflexivity|].
    split; [apply wf_new_tracker | now left].
  - simpl tracker_at. rewrite Et. cbn [bind]. rewrite watch_eq.
    destruct Hp as [[-> ->]|Hp].
    + rewrite (first_nextInst _ H1 H2). cbn [bind insts].
      eexists. split; [reflexivity|]. split.
      * split; [reflexivity | unfold CB.size, MAGIC_LEN; simpl; lia].
      * right. right. exists (getInst (env 0%nat)), []. now repeat split.
    + destruct (primed_nextInst (getInst (env n)) t Hw Hp)
        as (t1 & E & Hw1 & Hp1).
      rewrite E. cbn [bind]. eexists. split; [reflexivity|].
      destruct Hw1 as [Hc Hs]. split; [now split|].
      right. exact Hp1.
Qed.

Lemma watch_total env :
  getInst (env 0%nat) <> MAGIC_START0 ->
  getInst (env 0%nat) <> MAGIC_STOP0 ->
  forall n, exists a b,
    start_at env n = Ok a /\ stop_at env n = Ok b.
Proof.
  intros H1 H2 n.
  destruct (tracker_at_total env H1 H2 (S n)) as (t' & Et' & _).
  simpl tracker_at in Et'. unfold start_at, stop_at.
  destruct (tracker_at env n) as [t|]; [|discriminate].
  cbn [bind] in *.
  destruct (watch (getInst (env n)) t) as [[[a b] t3]|]; [|discriminate].
  now exists a, b.
Qed.

(** X3. When the first instruction retired is the first word of neither
    sequence, every call of the tracker in the run is in range, no start or
    stop event is consumed in iterations 0 to 3, and no iteration consumes
    both events.  (A run whose first instruction is one of those two words
    is the one that reads out of range.) *)
Theorem no_event_before_fifth_iteration (env : nat -> CycleIn) (n : nat) :
  getInst (env 0%nat) <> MAGIC_START0 ->
  getInst (env 0%nat) <> MAGIC_STOP0 ->
  exists a b,
    start_at env n = Ok a /\ stop_at env n = Ok b /\
    (a || b = true -> (4 <= n)%nat) /\
    a && b = false.
Proof.
  intros H1 H2. destruct (watch_total env H1 H2 n) as (a & b & Ha & Hb).
  exists a, b. split; [exact Ha|]. split; [exact Hb|].
  destruct (a || b) eqn:Hab.
  - destruct (event_needs_primed_window env n a b Ha Hb Hab) as [H4 Hx].
    split; [intros _; exact H4 | exact Hx].
  - apply orb_false_iff in Hab as [-> ->]. split; [discriminate|reflexivity].
Qed.

Lemma no_event_before_fifth_iteration_witness :
  getInst (start_env 0%nat) <> MAGIC_START0 /\
  getInst (start_env 0%nat) <> MAGIC_STOP0 /\
  exists a b,
    start_at start_env 4 = Ok a /\ stop_at start_env 4 = Ok b /\
    (a || b = true -> (4 <= 4)%nat) /\
    a && b = false.
Proof.
  split; [discriminate|]. split; [discriminate|].
  apply (no_event_before_fifth_iteration start_env 4); discriminate.
Defined.

(** * Further properties of the loop body *)



(** The host side of an iteration that completes. *)
Lemma cycle_host cfg inp s s' ev :
  cycle cfg inp s = Ok (s', ev) ->
  filter is_host ev = snd (host_exchange inp s) /\
  htif_in_valid s' = htif_in_valid (fst (host_exchange inp s)) /\
  htif_in_bits s' = htif_in_bits (fst (host_exchange inp s)).
Proof.
  intros Hc. destruct (cycle_nextInst _ _ _ _ _ Hc) as (t1 & Hn).
  rewrite (cycle_explicit cfg inp s t1 Hn) in Hc. injection Hc as <- <-.
  split; [|now split].
  rewrite !filter_app. unfold drive_memory, tick_memory.
  rewrite !(filter_map_none is_host) by reflexivity.
  assert (Hh : filter is_host (snd (host_exchange inp s))
               = snd (host_exchange inp s)).
  { unfold host_exchange. case_ifs; reflexivity. }
  rewrite Hh. unfold print_phase, dump_phase.
  case_ifs; cbn [filter is_host app]; now rewrite ?app_nil_r.
Qed.

(** X5. In an iteration in which the hardware model does not assert the
    host clock edge the loop does not touch the transport or the host
    wires: no receive, no send, nothing driven, and the buffered frame and
    its flag are kept. *)
Theorem no_host_exchange_without_clock_edge (cfg : Config) (inp : CycleIn)
    (s s' : State) (ev : list event) :
  host_clk_edge inp = false ->
  cycle cfg inp s = Ok (s', ev) ->
  filter is_host ev = [] /\
  htif_in_valid s' = htif_in_valid s /\ htif_in_bits s' = htif_in_bits s.
Proof.
  intros Hg Hc. destruct (cycle_host _ _ _ _ _ Hc) as (A & B & C).
  unfold host_exchange in A, B, C. rewrite Hg in A, B, C. auto.
Qed.

Lemma no_host_exchange_without_clock_edge_witness :
  exists s' ev,
    cycle (sample_cfg 100) (quiet_cycle nop)
          (mkState 100 1 0 (mkTracker (CB.mk MAGIC_LEN [nop]) false false)
                   true 9)
    = Ok (s', ev) /\
    filter is_host ev = [] /\ htif_in_valid s' = true /\ htif_in_bits s' = 9.
Proof.
  destruct (cycle (sample_cfg 100) (quiet_cycle nop)
              (mkState 100 1 0 (mkTracker (CB.mk MAGIC_LEN [nop]) false false)
                       true 9)) as [[s' ev]|] eqn:E; [|discriminate E].
  exists s', ev. split; [reflexivity|].
  exact (no_host_exchange_without_clock_edge (sample_cfg 100)
           (quiet_cycle nop) _ s' ev eq_refl E).
Defined.

(** X6. In a gated iteration the bridge calls [recv_nonblocking] exactly
    when the hardware model is ready for input or no frame is pending; the
    flag then becomes the result of the call (so an accepted frame is not
    presented again when nothing new arrived) and the buffer what the call
    stored, if anything; the pair driven on the inbound wires is always the
    pair held after that; the outbound frame is sent exactly when the
    hardware model asserts outbound validity; and outbound readiness is
    driven every time. *)
Theorem gated_exchange (cfg : Config) (inp : CycleIn)
    (s s' : State) (ev : list event) :
  host_clk_edge inp = true ->
  cycle cfg inp s = Ok (s', ev) ->
  let polls := host_in_ready inp || negb (htif_in_valid s) in
  htif_in_valid s' = (if polls then recv_result inp else htif_in_valid s) /\
  htif_in_bits s' =
    (if polls then match recv_stored inp with
                   | Some b => b
                   | None => htif_in_bits s
                   end
     else htif_in_bits s) /\
  filter is_host ev =
    (if polls then [Recv] else [])
      ++ [HostIn (htif_in_valid s') (htif_in_bits s')]
      ++ (if host_out_valid inp then [Send (host_out_bits inp)] else [])
      ++ [HostOutReady].
Proof.
  intros Hg Hc. destruct (cycle_host _ _ _ _ _ Hc) as (A & B & C).
  cbv zeta. rewrite A, B, C. unfold host_exchange. rewrite Hg.
  destruct (host_in_ready inp || negb (htif_in_valid s)); now cbn.
Qed.

Lemma gated_exchange_witness :
  exists s' ev,
    cycle (sample_cfg 100)
          (mkCycleIn false false true true false 0 false None nop)
          (mkState 100 1 0 (mkTracker (CB.mk MAGIC_LEN [nop]) false false)
                   true 9)
    = Ok (s', ev) /\
    htif_in_valid s' = false /\ htif_in_bits s' = 9 /\
    filter is_host ev = [Recv; HostIn false 9; HostOutReady].
Proof.
  destruct (cycle (sample_cfg 100)
              (mkCycleIn false false true true false 0 false None nop)
              (mkState 100 1 0 (mkTracker (CB.mk MAGIC_LEN [nop]) false false)
                       true 9)) as [[s' ev]|] eqn:E; [|discriminate E].
  exists s', ev. split; [reflexivity|].
  destruct (gated_exchange (sample_cfg 100)
              (mkCycleIn false false true true false 0 false None nop)
              _ s' ev eq_refl E) as (A & B & C).
  cbn in A, B. rewrite A, B in C. repeat split; assumption.
Defined.

(** * Further properties of runs *)

(** What every iteration contributes to a view of the trace adds up. *)
Lemma steps_flat cfg env (p : event -> bool) (g : CycleIn -> list event) :
  (forall inp s s' ev, cycle cfg inp s = Ok (s', ev) -> filter p ev = g inp) ->
  forall k n s tr s' tr',
    steps cfg env k n s tr = Ok (s', tr') ->
    exists ev, tr' = tr ++ ev /\
               filter p ev = flat_map (fun j => g (env j)) (seq n k).
Proof.
  intros Hg. induction k as [|k IH]; intros n s tr s' tr' Hs.
  - simpl in Hs. injection Hs as <- <-. exists []. now rewrite app_nil_r.
  - destruct (steps_S_inv _ _ _ _ _ _ _ _ Hs) as (s1 & ev1 & Ec & Hs').
    destruct (IH _ _ _ _ _ Hs') as (ev & -> & Hf).
    exists (ev1 ++ ev). rewrite <- app_assoc. split; [reflexivity|].
    rewrite filter_app, Hf, (Hg _ _ _ _ Ec). reflexivity.
Qed.

Lemma loop_flat cfg env (p : event -> bool) (g : CycleIn -> list event) :
  (forall inp s s' ev, cycle cfg inp s = Ok (s', ev) -> filter p ev = g inp) ->
  forall fuel e,
    loop cfg env fuel 0 (initial cfg) [] = Ok (Some e) ->
    filter p (trace e) = flat_map (fun j => g (env j)) (seq 0 (iterations e)).
Proof.
  intros Hg fuel e Hl. destruct (loop_is_steps _ _ _ _ _ _ _ Hl) as [_ Hs].
  rewrite Nat.sub_0_r in Hs.
  destruct (steps_flat cfg env p g Hg _ _ _ _ _ _ Hs) as (ev & Ht & Hf).
  simpl in Ht. now subst ev.
Qed.

Lemma flat_map_const_length {A B} (l : list A) (c : list B) :
  length (flat_map (fun _ => c) l) = (length l * length c)%nat.
Proof.
  induction l as [|x l IH]; simpl; [reflexivity|].
  rewrite length_app, IH. lia.
Qed.

Lemma filter_map_all {A} (p : event -> bool) (f : A -> event) l :
  (forall c, p (f c) = true) -> filter p (map f l) = map f l.
Proof. intros H. induction l; simpl; [reflexivity|]. now rewrite H, IHl. Qed.

Lemma cycle_views cfg inp s s' ev :
  cycle cfg inp s = Ok (s', ev) ->
  filter is_clock_lo ev = [ClockLo] /\
  filter is_clock_hi ev = [ClockHi] /\
  filter is_mem_drive ev = map MemDrive (seq 0 (N_MEM_CHANNELS cfg)) /\
  filter is_mem_tick ev = map MemTick (seq 0 (N_MEM_CHANNELS cfg)).
Proof.
  intros Hc. destruct (cycle_nextInst _ _ _ _ _ Hc) as (t1 & Hn).
  rewrite (cycle_explicit cfg inp s t1 Hn) in Hc. injection Hc as <- <-.
  rewrite !filter_app. unfold drive_memory, tick_memory, channels.
  rewrite !(filter_map_none is_clock_lo), !(filter_map_none is_clock_hi),
    (filter_map_none is_mem_drive MemTick),
    (filter_map_none is_mem_tick MemDrive) by reflexivity.
  rewrite (filter_map_all is_mem_drive MemDrive),
    (filter_map_all is_mem_tick MemTick) by reflexivity.
  unfold host_exchange, print_phase, dump_phase.
  repeat split; case_ifs; cbn; rewrite ?app_nil_r; reflexivity.
Qed.

Lemma filter_drive_of i n :
  filter (is_drive_of i) (map MemDrive (seq 0 n))
  = if (i <? n)%nat then [MemDrive i] else [].
Proof.
  induction n as [|n IH]; [reflexivity|].
  rewrite seq_S, map_app, filter_app, IH. cbn [Nat.add map filter is_drive_of].
  destruct (Nat.ltb_spec i n) as [Hlt|Hge].
  - destruct (Nat.eqb_spec i n) as [->|_]; [lia|].
    destruct (Nat.ltb_spec i (S n)); [reflexivity | lia].
  - destruct (Nat.eqb_spec i n) as [->|Hne].
    + destruct (Nat.ltb_spec n (S n)); [reflexivity | lia].
    + destruct (Nat.ltb_spec i (S n)); [lia | reflexivity].
Qed.

Lemma filter_tick_of i n :
  filter (is_tick_of i) (map MemTick (seq 0 n))
  = if (i <? n)%nat then [MemTick i] else [].
Proof.
  induction n as [|n IH]; [reflexivity|].
  rewrite seq_S, map_app, filter_app, IH. cbn [Nat.add map filter is_tick_of].
  destruct (Nat.ltb_spec i n) as [Hlt|Hge].
  - destruct (Nat.eqb_spec i n) as [->|_]; [lia|].
    destruct (Nat.ltb_spec i (S n)); [reflexivity | lia].
  - destruct (Nat.eqb_spec i n) as [->|Hne].
    + destruct (Nat.ltb_spec n (S n)); [reflexivity | lia].
    + destruct (Nat.ltb_spec i (S n)); [lia | reflexivity].
Qed.

(** What one iteration shows of one channel. *)
Lemma cycle_channel cfg inp s s' ev i :
  cycle cfg inp s = Ok (s', ev) ->
  filter (is_drive_of i) ev
  = (if (i <? N_MEM_CHANNELS cfg)%nat then [MemDrive i] else []) /\
  filter (is_tick_of i) ev
  = (if (i <? N_MEM_CHANNELS cfg)%nat then [MemTick i] else []).
Proof.
  intros Hc. destruct (cycle_nextInst _ _ _ _ _ Hc) as (t1 & Hn).
  rewrite (cycle_explicit cfg inp s t1 Hn) in Hc. injection Hc as <- <-.
  rewrite !filter_app. unfold drive_memory, tick_memory, channels.
  rewrite filter_drive_of, filter_tick_of.
  rewrite (filter_map_none (is_drive_of i) MemTick),
    (filter_map_none (is_tick_of i) MemDrive) by reflexivity.
  unfold host_exchange, print_phase, dump_phase.
  split; case_ifs; cbn; rewrite ?app_nil_r; reflexivity.
Qed.

(** X7. In a run of the loop that ends, the hardware model is stepped once
    per iteration in each phase, and every memory channel is driven once
    and ticked once per iteration: the trace holds as many [clock_lo] and
    [clock_hi] calls as iterations; its drives are those of channels
    0 to [N_MEM_CHANNELS - 1] in this order, once for each iteration, and
    so are its ticks; so each channel below [N_MEM_CHANNELS] is driven as
    many times as there are iterations and ticked as many times, and no
    other channel is driven or ticked. *)
Theorem every_iteration_steps_once (cfg : Config) (env : nat -> CycleIn)
    (fuel : nat) (e : Exit) :
  loop cfg env fuel 0 (initial cfg) [] = Ok (Some e) ->
  length (filter is_clock_lo (trace e)) = iterations e /\
  length (filter is_clock_hi (trace e)) = iterations e /\
  filter is_mem_drive (trace e)
  = concat (repeat (map MemDrive (seq 0 (N_MEM_CHANNELS cfg)))
                   (iterations e)) /\
  filter is_mem_tick (trace e)
  = concat (repeat (map MemTick (seq 0 (N_MEM_CHANNELS cfg)))
                   (iterations e)) /\
  (forall i,
     length (filter (is_drive_of i) (trace e))
     = (if (i <? N_MEM_CHANNELS cfg)%nat then iterations e else 0%nat) /\
     length (filter (is_tick_of i) (trace e))
     = (if (i <? N_MEM_CHANNELS cfg)%nat then iterations e else 0%nat)).
Proof.
  intros Hl.
  assert (Hrep : forall (c : list event) k n,
             flat_map (fun _ : nat => c) (seq n k) = concat (repeat c k)).
  { intros c. induction k as [|k IH]; intros n; [reflexivity|].
    simpl. now rewrite IH. }
  rewrite (loop_flat cfg env is_clock_lo (fun _ => [ClockLo])
             (fun _ _ _ _ H => proj1 (cycle_views _ _ _ _ _ H)) _ _ Hl).
  rewrite (loop_flat cfg env is_clock_hi (fun _ => [ClockHi])
             (fun _ _ _ _ H => proj1 (proj2 (cycle_views _ _ _ _ _ H))) _ _ Hl).
  rewrite (loop_flat cfg env is_mem_drive
             (fun _ => map MemDrive (seq 0 (N_MEM_CHANNELS cfg)))
             (fun _ _ _ _ H =>
                proj1 (proj2 (proj2 (cycle_views _ _ _ _ _ H)))) _ _ Hl).
  rewrite (loop_flat cfg env is_mem_tick
             (fun _ => map MemTick (seq 0 (N_MEM_CHANNELS cfg)))
             (fun _ _ _ _ H =>
                proj2 (proj2 (proj2 (cycle_views _ _ _ _ _ H)))) _ _ Hl).
  rewrite !flat_map_const_length, !length_seq, !Hrep.
  split; [simpl; lia|]. split; [simpl; lia|].
  split; [reflexivity|]. split; [reflexivity|].
  intros i.
  rewrite (loop_flat cfg env (is_drive_of i)
             (fun _ => if (i <? N_MEM_CHANNELS cfg)%nat
                       then [MemDrive i] else [])
             (fun _ _ _ _ H => proj1 (cycle_channel _ _ _ _ _ i H)) _ _ Hl).
  rewrite (loop_flat cfg env (is_tick_of i)
             (fun _ => if (i <? N_MEM_CHANNELS cfg)%nat
                       then [MemTick i] else [])
             (fun _ _ _ _ H => proj2 (cycle_channel _ _ _ _ _ i H)) _ _ Hl).
  rewrite !flat_map_const_length, !length_seq.
  destruct (i <? N_MEM_CHANNELS cfg)%nat; simpl; lia.
Qed.

Lemma every_iteration_steps_once_witness :
  exists e,
    loop (mkConfig true false false 10 3 2) (fun _ => stalled_cycle) 5 0
         (initial (mkConfig true false false 10 3 2)) []
    = Ok (Some e) /\
    iterations e = 3%nat /\
    filter is_mem_drive (trace e)
    = [MemDrive 0; MemDrive 1; MemDrive 0; MemDrive 1; MemDrive 0;
       MemDrive 1] /\
    length (filter (is_tick_of 1) (trace e)) = 3%nat /\
    length (filter (is_tick_of 2) (trace e)) = 0%nat.
Proof.
  let r := eval vm_compute in
    (loop (mkConfig true false false 10 3 2) (fun _ => stalled_cycle) 5 0
          (initial (mkConfig true false false 10 3 2)) []) in
  match r with
  | Ok (Some ?e) =>
      assert (E : loop (mkConfig true false false 10 3 2)
                    (fun _ => stalled_cycle) 5 0
                    (initial (mkConfig true false false 10 3 2)) []
                  = Ok (Some e)) by (vm_compute; reflexivity);
      exists e; split; [exact E|];
      destruct (every_iteration_steps_once _ _ _ _ E)
        as (_ & _ & D & _ & C)
  end.
  split; [reflexivity|]. split; [exact D|].
  split; [exact (proj2 (C 1%nat)) | exact (proj2 (C 2%nat))].
Defined.

Lemma cycle_sends cfg inp s s' ev :
  cycle cfg inp s = Ok (s', ev) ->
  filter is_send ev =
    (if host_clk_edge inp && host_out_valid inp
     then [Send (host_out_bits inp)] else []) /\
  filter is_out_ready ev = (if host_clk_edge inp then [HostOutReady] else []).
Proof.
  intros Hc. destruct (cycle_nextInst _ _ _ _ _ Hc) as (t1 & Hn).
  rewrite (cycle_explicit cfg inp s t1 Hn) in Hc. injection Hc as <- <-.
  rewrite !filter_app. unfold drive_memory, tick_memory.
  rewrite !(filter_map_none is_send), !(filter_map_none is_out_ready)
    by reflexivity.
  unfold host_exchange, print_phase, dump_phase.
  destruct (host_clk_edge inp), (host_out_valid inp); cbn [andb];
    split; case_ifs; reflexivity.
Qed.

Lemma flat_map_gated env n k :
  length (flat_map (fun j => if host_clk_edge (env j)
                             then [HostOutReady] else []) (seq n k))
  = gated_cycles env n k.
Proof.
  unfold gated_cycles. revert n. induction k as [|k IH]; intros n; simpl;
    [reflexivity|].
  rewrite length_app, IH. destruct (host_clk_edge (env n)); reflexivity.
Qed.

(** X8. In a run of the loop that ends, the frames sent to the transport
    are exactly those the hardware model offered on gated iterations with
    outbound validity asserted, each once and in order; and outbound
    readiness is driven in every gated iteration, whatever the transport
    does. *)
Theorem offered_frames_are_sent_once (cfg : Config) (env : nat -> CycleIn)
    (fuel : nat) (e : Exit) :
  loop cfg env fuel 0 (initial cfg) [] = Ok (Some e) ->
  filter is_send (trace e) = offered env 0 (iterations e) /\
  length (filter is_out_ready (trace e)) = gated_cycles env 0 (iterations e).
Proof.
  intros Hl. split.
  - apply (loop_flat cfg env is_send
             (fun inp => if host_clk_edge inp && host_out_valid inp
                         then [Send (host_out_bits inp)] else [])
             (fun _ _ _ _ H => proj1 (cycle_sends _ _ _ _ _ H)) _ _ Hl).
  - rewrite (loop_flat cfg env is_out_ready
               (fun inp => if host_clk_edge inp then [HostOutReady] else [])
               (fun _ _ _ _ H => proj2 (cycle_sends _ _ _ _ _ H)) _ _ Hl).
    apply flat_map_gated.
Qed.

Lemma offered_frames_are_sent_once_witness :
  exists e,
    loop (sample_cfg 3)
         (env_of [quiet_cycle nop; failing_cycle] (quiet_cycle nop))
         5 0 (initial (sample_cfg 3)) [] = Ok (Some e) /\
    filter is_send (trace e) = [Send 7].
Proof.
  destruct (loop (sample_cfg 3)
              (env_of [quiet_cycle nop; failing_cycle] (quiet_cycle nop))
              5 0 (initial (sample_cfg 3)) []) as [[e|]|] eqn:E;
    try discriminate E.
  exists e. split; [reflexivity|].
  assert (Hi : iterations e = 2%nat)
    by (vm_compute in E; injection E as <-; reflexivity).
  destruct (offered_frames_are_sent_once (sample_cfg 3)
              (env_of [quiet_cycle nop; failing_cycle] (quiet_cycle nop))
              5 e E) as (A & _).
  rewrite Hi in A. exact A.
Defined.

(** What an iteration that completes does to budget, counter and status. *)
Lemma cycle_counters cfg inp s s' ev :
  cycle cfg inp s = Ok (s', ev) ->
  exists a : bool,
    trace_count s' = wrap64 ((if a then 0 else trace_count s) + 1) /\
    max_cycles s' = (if clock_lo_throws inp then trace_count s
                     else max_cycles s) /\
    ret s' = (if clock_lo_throws inp then 1 else ret s).
Proof.
  intros Hc. destruct (cycle_nextInst _ _ _ _ _ Hc) as (t1 & Hn).
  rewrite (cycle_explicit cfg inp s t1 Hn) in Hc. injection Hc as <- _.
  exists (needs_reset t1). now repeat split.
Qed.

Lemma loop_cond_true inp s :
  loop_cond inp s = true ->
  htif_done inp = false /\ trace_count s < max_cycles s /\ ret s = 0.
Proof.
  unfold loop_cond. intros H.
  apply andb_true_iff in H. destruct H as [H H3].
  apply andb_true_iff in H. destruct H as [H1 H2].
  apply negb_true_iff in H1. apply Z.ltb_lt in H2. apply Z.eqb_eq in H3.
  now repeat split.
Qed.

Lemma loop_cond_false inp s :
  loop_cond inp s = false ->
  htif_done inp = true \/ max_cycles s <= trace_count s \/ ret s <> 0.
Proof.
  unfold loop_cond. intros H.
  destruct (htif_done inp); [now left|]. simpl in H.
  destruct (Z.ltb_spec (trace_count s) (max_cycles s)); [|right; now left].
  simpl in H. apply Z.eqb_neq in H. right. now right.
Qed.

(** While no evaluation has failed the counter stays within the budget,
    which stays what it was. *)
Lemma loop_budget_invariant cfg env fuel : forall n s tr e,
  loop cfg env fuel n s tr = Ok (Some e) ->
  max_cycles s < 2 ^ 64 ->
  (ret s = 0 -> 0 <= trace_count s <= max_cycles s) ->
  ret (final e) = 0 ->
  ret s = 0 /\
  0 <= trace_count (final e) <= max_cycles (final e) /\
  max_cycles (final e) = max_cycles s /\
  loop_cond (env (iterations e)) (final e) = false.
Proof.
  induction fuel as [|fuel IH]; intros n s tr e; simpl;
    destruct (loop_cond (env n) s) eqn:Ec.
  - discriminate.
  - intros H; injection H as <-. simpl. intros Hm Hi Hr. auto.
  - unfold bind. destruct (cycle cfg (env n) s) as [[s1 ev]|] eqn:Ecy;
      [|discriminate].
    intros Hl Hm Hi Hr.
    destruct (loop_cond_true _ _ Ec) as (_ & Hlt & Hr0).
    destruct (cycle_counters _ _ _ _ _ Ecy) as (a & Hc1 & Hm1 & Hr1).
    specialize (Hi Hr0).
    destruct (clock_lo_throws (env n)) eqn:Et.
    + (* a failure leaves ret = 1 for good *)
      exfalso.
      assert (Hkeep : forall fuel n s tr e,
                 loop cfg env fuel n s tr = Ok (Some e) ->
                 ret s = 1 -> ret (final e) = 1).
      { clear. induction fuel as [|fuel IHf]; intros n s tr e; simpl;
          destruct (loop_cond (env n) s) eqn:Ec; try discriminate;
          try (intros H; injection H as <-; now simpl).
        intros _ Hr. destruct (loop_cond_true _ _ Ec) as (_ & _ & H0).
        congruence. }
      rewrite (Hkeep _ _ _ _ _ Hl Hr1) in Hr. discriminate.
    + destruct (IH _ _ _ _ Hl) as (_ & A & B & C); try assumption.
      * rewrite Hm1. exact Hm.
      * intros _. rewrite Hm1, Hc1.
        rewrite wrap64_small by (destruct a; lia). destruct a; lia.
      * split; [exact Hr0|]. split; [exact A|]. split; [congruence|exact C].
  - intros H; injection H as <-. simpl. intros Hm Hi Hr. auto.
Qed.

(** X9. In a run that starts with a budget below 2^64 and ends without an
    evaluation failure, the budget is still the one given and the cycle
    counter has not passed it; if moreover the transport does not report
    completion at the exit, the counter equals the budget, and with a zero
    transport status [main] returns 2: the equality test after the loop
    cannot miss an exhausted budget. *)
Theorem counter_never_passes_budget (cfg : Config) (env : nat -> CycleIn)
    (exit_code : Z) (fuel : nat) (o : Outcome) :
  0 <= max_cycles_arg cfg < 2 ^ 64 ->
  main cfg env exit_code fuel = Ok (Some o) ->
  ret (final (at_exit o)) = 0 ->
  0 <= trace_count (final (at_exit o)) <= max_cycles_arg cfg /\
  max_cycles (final (at_exit o)) = max_cycles_arg cfg /\
  (htif_done (env (iterations (at_exit o))) = false ->
   trace_count (final (at_exit o)) = max_cycles_arg cfg /\
   (exit_code = 0 -> status o = 2)).
Proof.
  intros Hb Hmain Hr. unfold main, bind in Hmain.
  destruct (loop cfg env fuel 0 (initial cfg) []) as [[e|]|] eqn:El;
    try discriminate.
  destruct (finish cfg exit_code (final e)) as [st msg] eqn:Ef.
  injection Hmain as <-. simpl in *.
  destruct (loop_budget_invariant _ _ _ _ _ _ _ El) as (_ & A & B & C);
    simpl; try lia; try assumption.
  simpl in B. rewrite B in A. split; [exact A|]. split; [exact B|].
  intros Hd. destruct (loop_cond_false _ _ C) as [H|[H|H]];
    [congruence| |contradiction].
  assert (Heq : trace_count (final e) = max_cycles_arg cfg) by lia.
  split; [exact Heq|]. intros ->.
  rewrite finish_timeout in Ef by congruence. now injection Ef as <- _.
Qed.

Lemma counter_never_passes_budget_witness :
  exists o,
    main (sample_cfg 6) start_env 0 10 = Ok (Some o) /\
    trace_count (final (at_exit o)) = 6 /\ status o = 2.
Proof.
  let r := eval vm_compute in (main (sample_cfg 6) start_env 0 10) in
  match r with
  | Ok (Some ?o) =>
      assert (E : main (sample_cfg 6) start_env 0 10 = Ok (Some o))
        by (vm_compute; reflexivity);
      exists o; split; [exact E|];
      destruct (counter_never_passes_budget (sample_cfg 6) start_env 0 10 o)
        as (_ & _ & H); [simpl; lia | exact E | reflexivity |];
      destruct (H eq_refl) as [A B];
      split; [exact A | exact (B eq_refl)]
  end.
Defined.

(** The return value of the loop tells whether an evaluation failed. *)
Lemma loop_ret_invariant cfg env fuel : forall n s tr e,
  loop cfg env fuel n s tr = Ok (Some e) ->
  (ret s = 0 /\ ~ In ErrorMessage tr) \/ (ret s = 1 /\ In ErrorMessage tr) ->
  (ret (final e) = 0 /\ ~ In ErrorMessage (trace e)) \/
  (ret (final e) = 1 /\ In ErrorMessage (trace e)).
Proof.
  induction fuel as [|fuel IH]; intros n s tr e; simpl;
    destruct (loop_cond (env n) s) eqn:Ec.
  - discriminate.
  - intros H; injection H as <-. now simpl.
  - unfold bind. destruct (cycle cfg (env n) s) as [[s1 ev]|] eqn:Ecy;
      [|discriminate].
    intros Hl Hinv. apply (IH _ _ _ _ Hl).
    destruct (cycle_errors _ _ _ _ _ Ecy) as [Hf Hr]. rewrite Hr.
    destruct (loop_cond_true _ _ Ec) as (_ & _ & Hr0).
    destruct Hinv as [[_ Hno]|[H1 _]]; [|congruence].
    destruct (clock_lo_throws (env n)).
    + right. split; [reflexivity|]. apply in_app_iff. right.
      apply in_error_filter. now rewrite Hf.
    + left. split; [exact Hr0|]. intros Hin. apply in_app_iff in Hin.
      destruct Hin as [Hin|Hin]; [contradiction|].
      apply in_error_filter in Hin. contradiction.
  - intros H; injection H as <-. now simpl.
Qed.

(** X10. The value [main] returns after a run that ends: the transport's
    status when that is not zero; otherwise 2 when the counter equals the
    budget; otherwise 1 when an evaluation failed in the run and 0 when
    none did.  So [main] returns 0 exactly when the transport reports zero,
    the counter differs from the budget and no evaluation failed. *)
Theorem exit_status_of_a_run (cfg : Config) (env : nat -> CycleIn)
    (exit_code : Z) (fuel : nat) (o : Outcome) :
  main cfg env exit_code fuel = Ok (Some o) ->
  let s := final (at_exit o) in
  let failed := In ErrorMessage (trace (at_exit o)) in
  (exit_code <> 0 -> status o = exit_code) /\
  (exit_code = 0 -> trace_count s = max_cycles s -> status o = 2) /\
  (exit_code = 0 -> trace_count s <> max_cycles s -> failed -> status o = 1) /\
  (exit_code = 0 -> trace_count s <> max_cycles s -> ~ failed ->
   status o = 0) /\
  (status o = 0 <->
   exit_code = 0 /\ trace_count s <> max_cycles s /\ ~ failed).
Proof.
  intros Hmain. unfold main, bind in Hmain.
  destruct (loop cfg env fuel 0 (initial cfg) []) as [[e|]|] eqn:El;
    try discriminate.
  destruct (finish cfg exit_code (final e)) as [st msg] eqn:Ef.
  injection Hmain as <-. cbn [status at_exit].
  pose proof (loop_ret_invariant _ _ _ _ _ _ _ El
                (or_introl (conj eq_refl (fun H : In ErrorMessage [] => H))))
    as Hinv.
  unfold finish in Ef.
  destruct (Z.eqb_spec exit_code 0) as [->|Hne]; cbn [negb] in Ef.
  - destruct (Z.eqb_spec (trace_count (final e)) (max_cycles (final e)))
      as [Heq|Hneq].
    + injection Ef as <- _.
      repeat split; intros;
        repeat match goal with H : _ /\ _ |- _ => destruct H end;
        first [congruence | contradiction | lia].
    + assert (Hst : st = ret (final e))
        by (destruct (log cfg || print_cycles cfg); now injection Ef as <- _).
      subst st.
      destruct Hinv as [[H0 Hno]|[H1 Hin]]; [rewrite H0 | rewrite H1];
        repeat split; intros;
        repeat match goal with H : _ /\ _ |- _ => destruct H end;
        first [congruence | contradiction | lia | assumption].
  - injection Ef as <- _.
    repeat split; intros;
      repeat match goal with H : _ /\ _ |- _ => destruct H end;
      first [congruence | contradiction | lia].
Qed.

Lemma exit_status_of_a_run_witness :
  exists o,
    main (sample_cfg 100)
         (env_of [quiet_cycle nop; failing_cycle] (quiet_cycle nop)) 0 5
    = Ok (Some o) /\ status o = 1.
Proof.
  let r := eval vm_compute in
    (main (sample_cfg 100)
          (env_of [quiet_cycle nop; failing_cycle] (quiet_cycle nop)) 0 5) in
  match r with
  | Ok (Some ?o) =>
      assert (E : main (sample_cfg 100)
                    (env_of [quiet_cycle nop; failing_cycle] (quiet_cycle nop))
                    0 5 = Ok (Some o)) by (vm_compute; reflexivity);
      exists o; split; [exact E|];
      destruct (exit_status_of_a_run (sample_cfg 100)
                  (env_of [quiet_cycle nop; failing_cycle] (quiet_cycle nop))
                  0 5 o E) as (_ & _ & H & _);
      apply H; [reflexivity | discriminate | cbn; tauto]
  end.
Defined.

(** Without a start event the distance to the budget bounds what is left
    of the loop, whatever the transport and the evaluation do. *)
Lemma loop_bounded cfg env k : forall n s tr,
  tracker_at env n = Ok (tracker s) ->
  0 <= trace_count s -> max_cycles s < 2 ^ 64 ->
  max_cycles s - trace_count s <= Z.of_nat k ->
  (forall j, (j < k)%nat -> start_at env (n + j) = Ok false) ->
  exists e,
    loop cfg env k n s tr = Ok (Some e) /\ (iterations e <= n + k)%nat.
Proof.
  induction k as [|k IH]; intros n s tr Ht H0 Hm Hd Hq.
  - assert (Hc : loop_cond (env n) s = false).
    { unfold loop_cond.
      replace (trace_count s <? max_cycles s) with false
        by (symmetry; apply Z.ltb_ge; lia).
      now rewrite andb_false_r. }
    rewrite (loop_exit _ _ _ _ _ _ Hc). eexists. split; [reflexivity|].
    simpl. lia.
  - destruct (loop_cond (env n) s) eqn:Ec.
    + destruct (loop_cond_true _ _ Ec) as (_ & Hlt & _).
      assert (Hs : start_at env n = Ok false).
      { rewrite <- (Nat.add_0_r n). apply Hq. lia. }
      destruct (start_at_watch _ _ _ _ Ht Hs) as (b & t3 & Hw & Ht3).
      destruct (cycle_ok cfg _ _ _ _ _ Hw)
        as (s1 & ev & Hc & Htk & Hcnt & Hmax & _).
      rewrite wrap64_small in Hcnt by lia.
      rewrite (loop_step _ _ _ _ _ _ _ _ Ec Hc).
      destruct (IH (S n) s1 (tr ++ ev)) as (e & He & Hi).
      * now rewrite Htk.
      * lia.
      * rewrite Hmax. unfold eval_phase.
        destruct (clock_lo_throws (env n)); simpl; lia.
      * rewrite Hmax, Hcnt. unfold eval_phase.
        destruct (clock_lo_throws (env n)); simpl; lia.
      * intros j Hj. replace (S n + j)%nat with (n + S j)%nat by lia.
        apply Hq. lia.
      * exists e. split; [exact He | lia].
    + rewrite (loop_exit _ _ _ _ _ _ Ec). eexists. split; [reflexivity|].
      simpl. lia.
Qed.

(** X11. A run in which no start event is consumed ends within the budget:
    with a budget of [m] cycles and as much fuel, the loop is left after at
    most [m] iterations, whatever the transport reports and whether or not
    an evaluation fails. *)
Theorem run_ends_within_budget (cfg : Config) (env : nat -> CycleIn)
    (exit_code : Z) (m : nat) :
  max_cycles_arg cfg = Z.of_nat m -> Z.of_nat m < 2 ^ 64 ->
  (forall n, (n < m)%nat -> start_at env n = Ok false) ->
  exists o,
    main cfg env exit_code m = Ok (Some o) /\
    (iterations (at_exit o) <= m)%nat.
Proof.
  intros Hm Hb Hq.
  destruct (loop_bounded cfg env m 0 (initial cfg) []) as (e & He & Hi);
    try reflexivity; simpl; try lia.
  { exact Hq. }
  eexists. split; [apply (main_of_loop _ _ _ _ _ He)|]. exact Hi.
Qed.

Lemma run_ends_within_budget_witness :
  exists o,
    main (sample_cfg 100) (fun _ => quiet_cycle nop) 0 100 = Ok (Some o) /\
    (iterations (at_exit o) <= 100)%nat.
Proof.
  exact (run_ends_within_budget (sample_cfg 100) (fun _ => quiet_cycle nop)
           0 100 eq_refl eq_refl (fun n _ => start_at_quiet n)).
Defined.

(** X12. A run without evaluation failure and without start event, in
    which the transport first reports completion at the head of iteration
    [d], within the budget [m]: the loop body runs [d] times, the counter
    ends at [d], and with a zero transport status [main] returns 0 when
    [d < m]; when completion comes exactly as the budget is used up
    ([d = m]) it returns 2 and prints the timeout message, although the
    transport completed. *)
Theorem completion_within_budget (cfg : Config) (env : nat -> CycleIn)
    (d m fuel : nat) :
  max_cycles_arg cfg = Z.of_nat m -> Z.of_nat m < 2 ^ 64 ->
  (d <= m)%nat -> (d <= fuel)%nat ->
  (forall n, (n < d)%nat ->
     htif_done (env n) = false /\ clock_lo_throws (env n) = false /\
     start_at env n = Ok false) ->
  htif_done (env d) = true ->
  exists o,
    main cfg env 0 fuel = Ok (Some o) /\
    iterations (at_exit o) = d /\
    trace_count (final (at_exit o)) = Z.of_nat d /\
    ((d < m)%nat ->
     status o = 0 /\
     message o = (if log cfg || print_cycles cfg
                  then Completed (Z.of_nat d) else Silent)) /\
    (d = m -> status o = 2 /\ message o = FailedTimeout (Z.of_nat m)).
Proof.
  intros Hm Hb Hd Hf Hq Hdone.
  destruct (loop_quiet cfg env d 0 (initial cfg) [] (fuel - d))
    as (s' & tr' & Hl & _ & Hc & Hmax & Hr);
    try reflexivity; simpl; try lia.
  { exact Hq. }
  replace (d + (fuel - d))%nat with fuel in Hl by lia.
  simpl in Hc, Hmax.
  assert (Hexit : loop_cond (env d) s' = false).
  { unfold loop_cond. now rewrite Hdone. }
  rewrite (loop_exit _ _ _ _ _ _ Hexit) in Hl.
  eexists. split; [apply (main_of_loop _ _ _ _ _ Hl)|].
  cbn [at_exit iterations final status message].
  split; [reflexivity|]. split; [lia|]. split.
  - intros Hlt. unfold finish. cbn [negb Z.eqb].
    destruct (Z.eqb_spec (trace_count s') (max_cycles s')) as [E|E]; [lia|].
    rewrite Hr, Hc. now destruct (log cfg || print_cycles cfg).
  - intros ->. rewrite finish_timeout by lia. cbn. split; [reflexivity|].
    f_equal. lia.
Qed.

Lemma completion_within_budget_witness :
  exists o,
    main (sample_cfg 3)
         (env_of [quiet_cycle nop; quiet_cycle nop; quiet_cycle nop]
                 (mkCycleIn true false false false false 0 false None nop))
         0 3 = Ok (Some o) /\
    iterations (at_exit o) = 3%nat /\ status o = 2.
Proof.
  destruct (completion_within_budget (sample_cfg 3)
              (env_of [quiet_cycle nop; quiet_cycle nop; quiet_cycle nop]
                      (mkCycleIn true false false false false 0 false None nop))
              3 3 3 eq_refl eq_refl)
    as (o & Hmain & Hit & _ & _ & Heq).
  - lia.
  - lia.
  - intros n Hn.
    do 3 (destruct n as [|n]; [repeat split|]). lia.
  - reflexivity.
  - exists o. split; [exact Hmain|]. split; [exact Hit|].
    exact (proj1 (Heq eq_refl)).
Defined.

(** * The command line *)

Lemma substring_0_0 s : String.substring 0 0 s = ""%string.
Proof. now destruct s. Qed.

Lemma substring_whole s : String.substring 0 (String.length s) s = s.
Proof. induction s as [|c s IH]; simpl; [reflexivity | now rewrite IH]. Qed.

Lemma length_append p s :
  String.length (String.append p s) = (String.length p + String.length s)%nat.
Proof. induction p as [|c p IH]; simpl; [reflexivity | now rewrite IH]. Qed.

(** A prefix and what follows it. *)
Lemma substr_prefix p s : substr (String.length p) (String.append p s) = p.
Proof.
  unfold substr. induction p as [|c p IH]; simpl.
  - apply substring_0_0.
  - now rewrite IH.
Qed.

Lemma from_prefix p s : from (String.length p) (String.append p s) = s.
Proof.
  unfold from. rewrite length_append.
  replace (String.length p + String.length s - String.length p)%nat
    with (String.length s) by lia.
  induction p as [|c p IH]; simpl; [apply substring_whole | exact IH].
Qed.

Ltac prefix_arg p v k :=
  change (substr k (String.append p v))
    with (substr (String.length p) (String.append p v));
  change (from k (String.append p v))
    with (from (String.length p) (String.append p v));
  rewrite (substr_prefix p v), (from_prefix p v); reflexivity.

Section CommandLineFacts.

Variables atoll atoi : String.string -> Z.

Lemma parse_max_cycles v o :
  parse_arg atoll atoi (String.append "+max-cycles="%string v) o
  = set_max_cycles (wrap64 (atoll v)) o.
Proof. unfold parse_arg. prefix_arg "+max-cycles="%string v 12%nat. Qed.

(** X13. Each option that carries a value is recognised by its prefix and
    takes the rest of the argument, whatever that is, and changes one
    field: the trace file, the memory size, the seed, the budget, the image
    to load and the first printed cycle; numbers go through [atoll] or
    [atoi] and wrap into the unsigned type of the field. *)
Theorem value_options_take_the_rest (v : String.string) (o : Options) :
  parse_arg atoll atoi (String.append "-v"%string v) o = set_vcd v o /\
  parse_arg atoll atoi (String.append "+memsize="%string v) o
  = set_memsz_mb (wrap64 (atoll v)) o /\
  parse_arg atoll atoi (String.append "-s"%string v) o
  = set_random_seed (wrap32 (atoi v)) o /\
  parse_arg atoll atoi (String.append "+max-cycles="%string v) o
  = set_max_cycles (wrap64 (atoll v)) o /\
  parse_arg atoll atoi (String.append "+loadmem="%string v) o = set_loadmem v o /\
  parse_arg atoll atoi (String.append "+start="%string v) o
  = set_start (wrap64 (atoll v)) o.
Proof.
  unfold parse_arg. repeat split.
  - prefix_arg "-v"%string v 2%nat.
  - prefix_arg "+memsize="%string v 9%nat.
  - prefix_arg "-s"%string v 2%nat.
  - prefix_arg "+max-cycles="%string v 12%nat.
  - prefix_arg "+loadmem="%string v 9%nat.
  - prefix_arg "+start="%string v 7%nat.
Qed.

(** X14. The flags [+dramsim] and [+verbose] are recognised only when the
    argument is exactly that word: followed by anything, the argument is
    ignored without notice; [+cycle-count] is recognised with anything
    after it; and an argument that begins with [-v], such as [-verbose],
    names the trace file instead of enabling anything. *)
Theorem flags_match_exactly (suffix : String.string) (o : Options) :
  parse_arg atoll atoi "+verbose"%string o = set_log o /\
  parse_arg atoll atoi "+dramsim"%string o = set_dramsim2 o /\
  (suffix <> ""%string ->
   parse_arg atoll atoi (String.append "+verbose"%string suffix) o = o /\
   parse_arg atoll atoi (String.append "+dramsim"%string suffix) o = o) /\
  parse_arg atoll atoi (String.append "+cycle-count"%string suffix) o
  = set_print_cycles o /\
  parse_arg atoll atoi "-verbose"%string o = set_vcd "erbose"%string o.
Proof.
  split; [reflexivity|]. split; [reflexivity|]. split; [|split].
  - intros Hne. destruct suffix as [|c s]; [contradiction|].
    split; reflexivity.
  - unfold parse_arg.
    change (substr 12 (String.append "+cycle-count"%string suffix))
      with (substr (String.length "+cycle-count"%string)
              (String.append "+cycle-count"%string suffix)) at 2.
    now rewrite (substr_prefix "+cycle-count"%string suffix).
  - reflexivity.
Qed.

(** X15. An argument that begins with neither [-] nor [+], and the empty
    argument, change nothing: what is meant for the target program is
    passed over by this loop. *)
Theorem unsigned_arguments_are_ignored (c : Ascii.ascii)
    (rest : String.string) (o : Options) :
  c <> "-"%char -> c <> "+"%char ->
  parse_arg atoll atoi (String.String c rest) o = o /\
  parse_arg atoll atoi ""%string o = o.
Proof.
  intros H1 H2. apply Ascii.eqb_neq in H1, H2. split; [|reflexivity].
  unfold parse_arg, substr. cbn -[Ascii.eqb]. now rewrite H1, H2.
Qed.

Lemma parse_arg_keeps_budget a o :
  substr 12 a <> "+max-cycles="%string ->
  opt_max_cycles (parse_arg atoll atoi a o) = opt_max_cycles o.
Proof.
  intros H. apply String.eqb_neq in H. unfold parse_arg. rewrite H.
  repeat match goal with
         | |- context [if ?c then _ else _] => destruct c
         end; reflexivity.
Qed.

Lemma parse_args_keep_budget args : forall o,
  (forall a, In a args -> substr 12 a <> "+max-cycles="%string) ->
  opt_max_cycles (parse_args atoll atoi args o) = opt_max_cycles o.
Proof.
  unfold parse_args. induction args as [|a args IH]; intros o H; simpl;
    [reflexivity|].
  rewrite IH by (intros b Hb; apply H; now right).
  apply parse_arg_keeps_budget. apply H. now left.
Qed.

(** X16. The budget is the value of the last [+max-cycles=] argument,
    wrapped into 64 bits, whatever stands before it and whatever other
    arguments follow; when there is no such argument the budget stays
    2^64 - 1, the value the loop starts with. *)
Theorem budget_is_last_max_cycles (before after : list String.string)
    (v : String.string) (o : Options) (seed memsz_mb : Z) (channels : nat) :
  (forall a, In a after -> substr 12 a <> "+max-cycles="%string) ->
  opt_max_cycles
    (parse_args atoll atoi
       (before ++ String.append "+max-cycles="%string v :: after) o)
  = wrap64 (atoll v) /\
  max_cycles_arg
    (config_of (parse_args atoll atoi after (default_options seed memsz_mb))
               channels)
  = 2 ^ 64 - 1.
Proof.
  intros H. split.
  - unfold parse_args. rewrite fold_left_app. cbn [fold_left].
    rewrite parse_max_cycles.
    exact (parse_args_keep_budget after _ H).
  - unfold config_of. cbn [max_cycles_arg].
    exact (parse_args_keep_budget after _ H).
Qed.

End CommandLineFacts.

Lemma unsigned_arguments_are_ignored_witness :
  parse_arg (fun _ => 0) (fun _ => 0) "pk"%string (default_options 1 2) = default_options 1 2.
Proof.
  refine (proj1 (unsigned_arguments_are_ignored _ _ "p"%char "k"%string _ _ _));
    discriminate.
Defined.


Lemma flags_match_exactly_witness :
  parse_arg (fun _ => 0) (fun _ => 0) "+verbose=1"%string
            (default_options 1 2)
  = default_options 1 2.
Proof.
  refine (proj1 (proj1 (proj2 (proj2
            (flags_match_exactly (fun _ => 0) (fun _ => 0) "=1"%string
               (default_options 1 2)))) _)).
  discriminate.
Defined.

Lemma budget_is_last_max_cycles_witness :
  opt_max_cycles
    (parse_args (fun _ => 7) (fun _ => 0)
       (["+max-cycles=1"%string; "+verbose"%string]
        ++ String.append "+max-cycles="%string "7"%string
           :: ["-vout.vcd"%string; "pk"%string])
       (default_options 1 2))
  = wrap64 7.
Proof.
  refine (proj1 (budget_is_last_max_cycles (fun _ => 7) (fun _ => 0)
                   ["+max-cycles=1"%string; "+verbose"%string]
                   ["-vout.vcd"%string; "pk"%string] "7"%string
                   (default_options 1 2) 1 2 1 _)).
  intros a [<-|[<-|[]]]; discriminate.
Defined.

(** * Setup, reset and the ways a run ends *)

Lemma init_memory_all fails d mb ch : forall todo,
  (forall i, In i todo -> fails i = false) ->
  init_memory fails d mb ch todo
  = (true, map (fun i => MemInit i d (channel_bytes mb ch)) todo).
Proof.
  induction todo as [|i todo IH]; intros H; simpl; [reflexivity|].
  rewrite (H i) by now left.
  rewrite IH by (intros j Hj; apply H; now right). reflexivity.
Qed.

Lemma init_memory_first fails d mb ch : forall pre i post,
  (forall j, In j pre -> fails j = false) -> fails i = true ->
  init_memory fails d mb ch (pre ++ i :: post)
  = (false,
     map (fun i => MemInit i d (channel_bytes mb ch)) (pre ++ [i])
     ++ [AllocMessage (requested_bytes mb) mb]).
Proof.
  induction pre as [|j pre IH]; intros i post H Hi; simpl.
  - now rewrite Hi.
  - rewrite (H j) by now left.
    rewrite IH by (try assumption; intros k Hk; apply H; now right).
    reflexivity.
Qed.

Lemma init_memory_inv fails d mb ch : forall todo ok ev,
  init_memory fails d mb ch todo = (ok, ev) ->
  (ok = true /\ (forall i, In i todo -> fails i = false) /\
   ev = map (fun i => MemInit i d (channel_bytes mb ch)) todo) \/
  (ok = false /\ exists pre i post,
     todo = pre ++ i :: post /\ (forall j, In j pre -> fails j = false) /\
     fails i = true /\
     ev = map (fun i => MemInit i d (channel_bytes mb ch)) (pre ++ [i])
          ++ [AllocMessage (requested_bytes mb) mb]).
Proof.
  induction todo as [|i todo IH]; intros ok ev E; simpl in E.
  - inversion E; subst. left. repeat split. intros i [].
  - destruct (fails i) eqn:Hi.
    + inversion E; subst. right. split; [reflexivity|].
      exists [], i, todo. repeat split; try assumption. intros j [].
    + destruct (init_memory fails d mb ch todo) as [ok' ev'] eqn:E'.
      inversion E; subst.
      destruct (IH _ _ eq_refl) as [(-> & Hall & ->) |
                                    (-> & pre & k & post & -> & Hp & Hk & ->)].
      * left. repeat split. intros j [<-|Hj]; [assumption | now apply Hall].
      * right. split; [reflexivity|].
        exists (i :: pre), k, post. repeat split; try assumption.
        intros j [<-|Hj]; [assumption | now apply Hp].
Qed.

Lemma seq_cut (i k : nat) :
  seq 0 (i + S k) = seq 0 i ++ i :: seq (S i) k.
Proof. now rewrite seq_app. Qed.

Lemma filter_none {A} (f : A -> bool) l :
  (forall x, In x l -> f x = false) -> filter f l = [].
Proof.
  induction l as [|a l IH]; intros H; simpl; [reflexivity|].
  rewrite (H a) by now left. apply IH. intros x Hx. apply H. now right.
Qed.

Lemma filter_all {A} (f : A -> bool) l :
  (forall x, In x l -> f x = true) -> filter f l = l.
Proof.
  induction l as [|a l IH]; intros H; simpl; [reflexivity|].
  rewrite (H a) by now left. f_equal. apply IH. intros x Hx. apply H.
  now right.
Qed.

Lemma filter_map_step {A} (p : step -> bool) (f : A -> step) b l :
  (forall a, p (f a) = b) ->
  filter p (map f l) = if b then map f l else [].
Proof.
  intros H. destruct b.
  - apply filter_all. intros x Hx. apply in_map_iff in Hx as (a & <- & _).
    apply H.
  - apply filter_none. intros x Hx. apply in_map_iff in Hx as (a & <- & _).
    apply H.
Qed.

Lemma filter_repeat_step (p : step -> bool) x n :
  filter p (repeat x n) = if p x then repeat x n else [].
Proof.
  induction n as [|n IH]; simpl; [now destruct (p x)|].
  rewrite IH. now destruct (p x).
Qed.

Ltac filter_steps p :=
  repeat first
    [ rewrite filter_app
    | rewrite filter_repeat_step
    | rewrite (filter_map_step p _ false) by reflexivity
    | progress cbn [filter app after_reset after_setup is_reset_cycle] ].

(** X17. When the initialisation of a memory cannot allocate, the process
    exits with -1 whatever would have followed: the memories before it were
    initialised in order, the message names the whole amount asked for (and
    the size in MiB), not the share of the channel, and nothing of what
    comes after the memories is run: no image is loaded, no transport is
    created, no cycle is stepped. *)
Theorem allocation_failure_exits (P : Platform) (o : Options)
    (channels fuel_reset fuel_loop i : nat) :
  vcd_opened P o = true ->
  (i < channels)%nat ->
  alloc_fails P i = true ->
  (forall j, (j < i)%nat -> alloc_fails P j = false) ->
  program P o channels fuel_reset fuel_loop
  = (ExitCalled (-1),
     (if vcd (config_of o channels) then [VcdHeader] else [])
     ++ [TileInit (opt_random_seed o)]
     ++ map (fun j => MemInit j (opt_dramsim2 o)
                        (channel_bytes (opt_memsz_mb o) channels))
            (seq 0 (S i))
     ++ [AllocMessage (requested_bytes (opt_memsz_mb o)) (opt_memsz_mb o)])
  /\ filter after_setup (snd (program P o channels fuel_reset fuel_loop))
     = [].
Proof.
  intros Hv Hi Hf Hb.
  assert (E : program P o channels fuel_reset fuel_loop
              = (ExitCalled (-1),
                 (if vcd (config_of o channels) then [VcdHeader] else [])
                 ++ [TileInit (opt_random_seed o)]
                 ++ map (fun j => MemInit j (opt_dramsim2 o)
                            (channel_bytes (opt_memsz_mb o) channels))
                        (seq 0 (S i))
                 ++ [AllocMessage (requested_bytes (opt_memsz_mb o))
                                  (opt_memsz_mb o)])).
  { unfold program. rewrite Hv. cbn [negb].
    replace channels with (i + S (channels - S i))%nat at 2 by lia.
    rewrite seq_cut.
    rewrite (init_memory_first _ _ _ _ (seq 0 i) i _)
      by (try assumption; intros j Hj; apply Hb; apply in_seq in Hj; lia).
    cbn [negb]. replace (S i) with (i + 1)%nat by lia.
    rewrite (seq_app i 1 0). reflexivity. }
  split; [exact E|]. rewrite E. cbn [snd].
  destruct (vcd (config_of o channels)); now filter_steps after_setup.
Qed.

Lemma allocation_failure_exits_witness :
  fst (program (sample_platform (fun i => Nat.eqb i 1)) sample_options 2 0 0)
  = ExitCalled (-1).
Proof.
  refine (f_equal fst
            (proj1 (allocation_failure_exits
                      (sample_platform (fun i => Nat.eqb i 1))
                      sample_options 2 0 0 1 _ _ _ _)));
    try reflexivity; try lia.
  intros j Hj. destruct j; [reflexivity | lia].
Defined.

(** ** The reset loop *)

Lemma count_edges_0 edge n : count_edges edge n 0 = O.
Proof. reflexivity. Qed.

Lemma count_edges_head edge n k :
  count_edges edge n (S k)
  = ((if edge n then 1 else 0) + count_edges edge (S n) k)%nat.
Proof. unfold count_edges. simpl. now destruct (edge n). Qed.

Lemma count_edges_le edge n k : (count_edges edge n k <= k)%nat.
Proof.
  unfold count_edges.
  etransitivity; [apply filter_length_le | now rewrite length_seq].
Qed.

Lemma reset_loop_done edge throws : forall fuel i n m,
  0 <= i <= 3 ->
  reset_loop edge throws fuel i n = ResetDone m <->
  exists k, m = (n + k)%nat /\ (k <= fuel)%nat /\
    (forall j, (j < k)%nat -> throws (n + j)%nat = false) /\
    i + Z.of_nat (count_edges edge n k) = 3 /\
    (k = O \/ edge (n + k - 1)%nat = true).
Proof.
  induction fuel as [|fuel IH]; intros i n m Hi.
  - simpl. destruct (Z.ltb_spec i 3) as [Hlt|Hge].
    + split; [discriminate|]. intros (k & -> & Hk & _ & Hc & _).
      assert (k = O) by lia. subst k. rewrite count_edges_0 in Hc. lia.
    + assert (i = 3) by lia. subst i. split.
      * intros E. inversion E; subst m. exists O.
        repeat split; first [lia | now left | reflexivity].
      * intros (k & -> & _ & _ & Hc & Hl).
        destruct k as [|k]; [now rewrite Nat.add_0_r|].
        exfalso. destruct Hl as [Hl|Hl]; [discriminate|].
        assert (Hz : count_edges edge n (S k) = O) by lia.
        unfold count_edges in Hz. apply length_zero_iff_nil in Hz.
        assert (Hin : In (n + S k - 1)%nat (filter edge (seq n (S k)))).
        { apply filter_In. split; [apply in_seq; lia | exact Hl]. }
        rewrite Hz in Hin. destruct Hin.
  - cbn [reset_loop]. destruct (Z.ltb_spec i 3) as [Hlt|Hge].
    + destruct (throws n) eqn:Ht.
      * split; [discriminate|]. intros (k & -> & _ & Hth & Hc & _).
        destruct k as [|k]; [rewrite count_edges_0 in Hc; lia|].
        specialize (Hth O ltac:(lia)). rewrite Nat.add_0_r in Hth.
        congruence.
      * rewrite IH by (destruct (edge n); lia). split.
        -- intros (k & -> & Hk & Hth & Hc & Hl). exists (S k).
           repeat split; try lia.
           ++ intros j Hj. destruct j as [|j];
                [now rewrite Nat.add_0_r|].
              replace (n + S j)%nat with (S n + j)%nat by lia.
              apply Hth. lia.
           ++ rewrite count_edges_head. destruct (edge n); lia.
           ++ right. destruct Hl as [->|Hl].
              ** rewrite count_edges_0 in Hc.
                 replace (n + 1 - 1)%nat with n by lia.
                 destruct (edge n); [reflexivity | lia].
              ** replace (n + S k - 1)%nat with (S n + k - 1)%nat by lia.
                 exact Hl.
        -- intros (k & -> & Hk & Hth & Hc & Hl).
           destruct k as [|k]; [rewrite count_edges_0 in Hc; lia|].
           exists k. repeat split; try lia.
           ++ intros j Hj.
              replace (S n + j)%nat with (n + S j)%nat by lia.
              apply Hth. lia.
           ++ rewrite count_edges_head in Hc. destruct (edge n); lia.
           ++ destruct k as [|k]; [now left|]. right.
              destruct Hl as [Hl|Hl]; [discriminate|].
              replace (S n + S k - 1)%nat with (n + S (S k) - 1)%nat by lia.
              exact Hl.
    + assert (i = 3) by lia. subst i. split.
      * intros E. inversion E; subst m. exists O.
        repeat split; first [lia | now left | reflexivity].
      * intros (k & -> & _ & _ & Hc & Hl).
        destruct k as [|k]; [now rewrite Nat.add_0_r|].
        exfalso. destruct Hl as [Hl|Hl]; [discriminate|].
        assert (Hz : count_edges edge n (S k) = O) by lia.
        unfold count_edges in Hz. apply length_zero_iff_nil in Hz.
        assert (Hin : In (n + S k - 1)%nat (filter edge (seq n (S k)))).
        { apply filter_In. split; [apply in_seq; lia | exact Hl]. }
        rewrite Hz in Hin. destruct Hin.
Qed.


(** X18. The reset loop ends after cycle [n - 1] exactly when that cycle
    is the one in which the host clock shows its third edge: it counts
    edges, not cycles, so it runs at least three cycles and as many more as
    the host clock is slower than the core clock; it ends only if no cycle
    before that threw. *)
Theorem reset_ends_at_third_host_edge (edge throws : nat -> bool)
    (fuel n : nat) :
  reset_loop edge throws fuel 0 0 = ResetDone n <->
  (3 <= n <= fuel)%nat /\
  (forall j, (j < n)%nat -> throws j = false) /\
  count_edges edge 0 n = 3%nat /\
  edge (n - 1)%nat = true.
Proof.
  rewrite reset_loop_done by lia. split.
  - intros (k & -> & Hk & Hth & Hc & Hl). cbn [Nat.add] in *.
    pose proof (count_edges_le edge 0 k) as Hle.
    assert (Hc3 : count_edges edge 0 k = 3%nat) by lia.
    repeat split; try lia; try assumption.
    destruct Hl as [->|Hl]; [rewrite count_edges_0 in Hc3; lia | exact Hl].
  - intros ((H3 & Hf) & Hth & Hc & Hl). exists n. cbn [Nat.add].
    repeat split; try lia; try assumption. now right.
Qed.

Lemma reset_done_long edge throws fuel n :
  reset_loop edge throws fuel 0 0 = ResetDone n -> (3 <= n)%nat.
Proof.
  rewrite reset_loop_done by lia.
  intros (k & -> & _ & _ & Hc & _).
  pose proof (count_edges_le edge 0 k). lia.
Qed.

(** ** How a run ends *)

Ltac flatten_app :=
  repeat (rewrite <- app_assoc || rewrite <- app_comm_cons); cbn [app].

Lemma main_unfold cfg env code fuel :
  main cfg env code fuel
  = match loop cfg env fuel 0 (initial cfg) [] with
    | Fault f => Fault f
    | Ok None => Ok None
    | Ok (Some e) =>
        Ok (Some (mkOutcome (fst (finish cfg code (final e)))
                            (snd (finish cfg code (final e))) e))
    end.
Proof.
  unfold main, bind.
  destruct (loop cfg env fuel 0 (initial cfg) []) as [[e|]|f];
    try reflexivity.
  now destruct (finish cfg code (final e)).
Qed.

(** X19. A run returns from [main] exactly when the trace file, if any,
    could be opened, every memory was initialised, the width of the host
    port passes the assertion, the reset loop ended and the main loop was
    left; the status returned is then the one the loop and the code after
    it settle, and the steps are, in this order: header, model
    initialisation, the memories, the image, the transport, the reset
    cycles, the iterations, closing the trace file, the report and the
    deletion of the transport. *)
Theorem run_returns_iff (P : Platform) (o : Options)
    (channels fuel_reset fuel_loop : nat) (st : Z) (log : list step) :
  program P o channels fuel_reset fuel_loop = (Returned st, log) <->
  exists n out,
    vcd_opened P o = true /\
    (forall i, (i < channels)%nat -> alloc_fails P i = false) /\
    htif_bits P mod 8 = 0 /\ htif_bits P <= val_n_bits P /\
    reset_loop (reset_edge P) (reset_throws P) fuel_reset 0 0
    = ResetDone n /\
    (3 <= n)%nat /\
    main (config_of o channels) (loop_env P) (htif_exit_code P) fuel_loop
    = Ok (Some out) /\
    st = status out /\
    log = (if vcd (config_of o channels) then [VcdHeader] else [])
          ++ [TileInit (opt_random_seed o)]
          ++ map (fun j => MemInit j (opt_dramsim2 o)
                             (channel_bytes (opt_memsz_mb o) channels))
                 (seq 0 channels)
          ++ match opt_loadmem o with Some p => [LoadMem p] | None => [] end
          ++ [HtifNew]
          ++ repeat ResetCycle n
          ++ map Cycle (trace (at_exit out))
          ++ (if vcd (config_of o channels) then [VcdClose] else [])
          ++ match message out with Silent => [] | m => [Report m] end
          ++ [HtifDelete].
Proof.
  unfold program. rewrite main_unfold. split.
  - destruct (vcd_opened P o); cbn [negb]; [|discriminate].
    destruct (init_memory _ _ _ _ _) as [ok ev] eqn:Em.
    apply init_memory_inv in Em.
    destruct Em as [(-> & Hall & ->) | (-> & _)]; cbn [negb];
      [|discriminate].
    destruct (Z.eqb_spec (htif_bits P mod 8) 0) as [H8|H8];
      cbn [andb negb]; [|discriminate].
    destruct (Z.leb_spec (htif_bits P) (val_n_bits P)) as [Hw|Hw];
      cbn [negb]; [|discriminate].
    destruct (reset_loop _ _ _ _ _) as [n|n|] eqn:Er; try discriminate.
    destruct (loop _ _ _ _ _ _) as [[e|]|f]; try discriminate.
    destruct (finish _ _ _) as [st' msg] eqn:Ef. intros E.
    inversion E; subst st' log. exists n, (mkOutcome st msg e).
    cbn [status message at_exit fst snd].
    repeat split; try assumption; try reflexivity.
    + intros i Hi. apply Hall. apply in_seq. lia.
    + exact (reset_done_long _ _ _ _ Er).
    + flatten_app. unfold config_of; cbn [vcd]. now destruct msg.
  - intros (n & out & Hv & Hall & H8 & Hw & Er & _ & Em & -> & ->).
    rewrite Hv. cbn [negb].
    rewrite init_memory_all by (intros i Hi; apply Hall; apply in_seq in Hi;
                                lia).
    cbn [negb]. rewrite H8. cbn [Z.eqb andb].
    destruct (Z.leb_spec (htif_bits P) (val_n_bits P)) as [_|Hw'];
      [|lia].
    cbn [negb]. rewrite Er.
    destruct (loop _ _ _ _ _ _) as [[e|]|f]; try discriminate.
    destruct (finish _ _ _) as [st' msg] eqn:Ef.
    cbn [fst snd] in Em. inversion Em; subst out.
    cbn [status message at_exit]. flatten_app.
    unfold config_of; cbn [vcd].
    now destruct msg.
Qed.


Lemma reset_ends_at_third_host_edge_witness :
  reset_loop Nat.odd (fun _ => false) 10 0 0 = ResetDone 6.
Proof.
  apply (proj2 (reset_ends_at_third_host_edge Nat.odd (fun _ => false) 10 6)).
  repeat split; try lia; reflexivity.
Defined.

Lemma run_returns_iff_witness :
  exists log,
    program (sample_platform (fun _ => false)) sample_options 2 6 3
    = (Returned 2, log).
Proof.
  eexists.
  apply (proj2 (run_returns_iff (sample_platform (fun _ => false))
                  sample_options 2 6 3 2 _)).
  exists 6%nat.
  let r := eval vm_compute in
    (main (config_of sample_options 2)
          (loop_env (sample_platform (fun _ => false))) 0 3) in
  match r with
  | Ok (Some ?out) => exists out
  end.
  repeat split;
    first [lia | vm_compute; reflexivity | vm_compute; discriminate].
Defined.

(** * Evaluation failure, over a run *)

(** The iteration after one that consumed a start event consumes none. *)
Lemma no_start_after_start env n t a b t3 :
  start_at env n = Ok true ->
  tracker_at env (S n) = Ok t ->
  watch (getInst (env (S n))) t = Ok (a, b, t3) ->
  a = false.
Proof.
  intros Hs Ht Hw.
  unfold start_at in Hs. simpl tracker_at in Ht.
  destruct (tracker_at env n) as [t0|] eqn:E0; [|discriminate].
  destruct (tracker_at_inv _ _ _ E0) as [Hw0 [Hi1 Hi2]].
  cbn [bind] in Hs, Ht.
  destruct (watch (getInst (env n)) t0) as [[[a0 b0] t1]|] eqn:Ew0;
    [|discriminate].
  injection Hs as ->. injection Ht as ->.
  rewrite watch_eq in Ew0. unfold bind in Ew0.
  destruct (nextInst (getInst (env n)) t0) as [u|] eqn:Eu; [|discriminate].
  injection Ew0 as H1 _ <-.
  destruct (needs_reset_raised _ _ _ Hw0 Hi1 Eu H1) as [_ Hpat].
  rewrite watch_eq in Hw. unfold bind in Hw.
  destruct (nextInst (getInst (env (S n))) _) as [v|] eqn:Ev; [|discriminate].
  injection Hw as <- _ _.
  destruct (needs_reset v) eqn:E5; [|reflexivity]. exfalso.
  pose proof (wf_nextInst _ _ _ Hw0 Eu) as [Hc1 Hs1].
  assert (Hw3 : wf (mkTracker (insts u) false false)) by now split.
  destruct (needs_reset_raised _ _ _ Hw3 eq_refl Ev E5) as [Hnew Hpat4].
  destruct (nextInst_inv _ _ _ Ev) as [[C _]|[_ (a4 & b4 & _ & _ & ->)]];
    [congruence|].
  simpl in Hpat4.
  destruct (push_back_wf (getInst (env (S n))) (insts u) Hc1 Hs1)
    as (_ & _ & Hfull).
  rewrite Hfull in Hpat4 by (unfold CB.size; now rewrite Hpat).
  rewrite Hpat in Hpat4. discriminate.
Qed.

(** Nor does iteration 1: the window holds one entry at most. *)
Lemma no_start_at_one env t a b t3 :
  tracker_at env 1 = Ok t ->
  watch (getInst (env 1%nat)) t = Ok (a, b, t3) ->
  a = false.
Proof.
  intros Ht Hw. destruct a; [exfalso|reflexivity].
  destruct (tracker_at_inv _ _ _ Ht) as [Hwf Hid].
  pose proof (tracker_at_size _ _ _ Ht) as Hsz.
  destruct (watch_event_needs_full_window _ _ _ _ _ Hwf Hid Hw eq_refl)
    as [H3 _].
  lia.
Qed.

(** Where the counter is 1 at the head of an iteration of a run, and what
    follows for the iteration in which an evaluation fails: the counter it
    leaves differs from the budget it sets. *)
Lemma loop_failure_status cfg env fuel : forall n s tr e,
  loop cfg env fuel n s tr = Ok (Some e) ->
  tracker_at env n = Ok (tracker s) ->
  ret s = 0 -> ~ In ErrorMessage tr ->
  max_cycles s < 2 ^ 64 ->
  (n = 0%nat /\ trace_count s = 0) \/
  ((1 <= n)%nat /\ 1 <= trace_count s /\
   (trace_count s = 1 ->
    n = 1%nat \/ exists m, n = S m /\ start_at env m = Ok true)) ->
  In ErrorMessage (trace e) ->
  ret (final e) = 1 /\ trace_count (final e) <> max_cycles (final e).
Proof.
  induction fuel as [|fuel IH]; intros n s tr e Hl Ht Hr Hno Hm Hj Hin.
  - simpl in Hl. destruct (loop_cond (env n) s); [discriminate|].
    injection Hl as <-. contradiction.
  - destruct (loop_cond (env n) s) eqn:Hc.
    2:{ rewrite loop_exit in Hl by exact Hc. injection Hl as <-.
        contradiction. }
    destruct (loop_cond_true _ _ Hc) as (_ & Hlt & _).
    destruct (cycle cfg (env n) s) as [[s' ev]|] eqn:Ec.
    2:{ simpl in Hl. rewrite Hc, Ec in Hl. discriminate. }
    rewrite (loop_step _ _ _ _ _ _ _ _ Hc Ec) in Hl.
    pose proof (cycle_tracker_at _ _ _ _ _ _ Ht Ec) as Ht'.
    destruct (cycle_errors _ _ _ _ _ Ec) as [Herr _].
    destruct (cycle_nextInst _ _ _ _ _ Ec) as (t1 & Hn).
    assert (Hwatch : watch (getInst (env n)) (tracker s)
                     = Ok (needs_reset t1, needs_emit_cycle_count t1,
                           mkTracker (insts t1) false false))
      by (rewrite watch_eq, Hn; reflexivity).
    assert (Hstart : start_at env n = Ok (needs_reset t1))
      by (unfold start_at; rewrite Ht; cbn [bind]; now rewrite Hwatch).
    assert (H0 : 0 <= trace_count s) by (destruct Hj as [[_ ->]|[_ [? _]]]; lia).
    rewrite (cycle_explicit cfg (env n) s t1 Hn) in Ec.
    injection Ec as <- <-.
    destruct (clock_lo_throws (env n)) eqn:Hthrow.
    + rewrite loop_exit in Hl
        by (unfold loop_cond; simpl; now rewrite andb_false_r).
      injection Hl as <-. cbn [final ret trace_count max_cycles].
      split; [reflexivity|].
      destruct (needs_reset t1) eqn:E1.
      * change (wrap64 (0 + 1)) with 1. intros Hone. symmetry in Hone.
        destruct Hj as [[_ Hz]|(_ & _ & Hw1)]; [lia|].
        destruct (Hw1 Hone) as [->|(m & -> & Hsm)].
        -- pose proof (no_start_at_one _ _ _ _ _ Ht Hwatch). congruence.
        -- pose proof (no_start_after_start _ _ _ _ _ _ Hsm Ht Hwatch).
           congruence.
      * apply wrap64_succ_neq.
    + eapply IH; [exact Hl | exact Ht' | exact Hr | | exact Hm | | exact Hin].
      * intros Hi. apply in_app_or in Hi as [Hi|Hi]; [contradiction|].
        apply in_error_filter in Hi. now rewrite Herr in Hi.
      * right. cbn [trace_count]. split; [lia|].
        destruct (needs_reset t1) eqn:E1.
        -- change (wrap64 (0 + 1)) with 1. split; [lia|].
           intros _. right. exists n. now split.
        -- rewrite wrap64_small by lia. split; [lia|].
           intros Hone. left.
           destruct Hj as [[-> _]|(? & ? & _)]; [reflexivity | lia].
Qed.

(** Under a budget below 2^64 and a zero transport status, a run in which
    an evaluation failed returns 1. *)
Lemma failed_run_returns_1 cfg env fuel o :
  0 <= max_cycles_arg cfg < 2 ^ 64 ->
  main cfg env 0 fuel = Ok (Some o) ->
  In ErrorMessage (trace (at_exit o)) ->
  status o = 1.
Proof.
  intros Hb Hm Hin. unfold main, bind in Hm.
  destruct (loop cfg env fuel 0 (initial cfg) []) as [[e|]|] eqn:El;
    try discriminate.
  destruct (finish cfg 0 (final e)) as [st msg] eqn:Ef.
  injection Hm as <-. cbn [status at_exit] in *.
  destruct (loop_failure_status cfg env fuel 0 (initial cfg) [] e El)
    as [Hr Hne]; try reflexivity; try assumption.
  - intros [].
  - simpl. lia.
  - left. now split.
  - unfold finish in Ef. cbn [negb Z.eqb] in Ef.
    destruct (Z.eqb_spec (trace_count (final e)) (max_cycles (final e)));
      [contradiction|].
    destruct (log cfg || print_cycles cfg); injection Ef as <- _; exact Hr.
Qed.

(** C1 (as the code has it).  When [clock_lo] throws in an iteration whose
    tracker call is in range, the iteration completes; it leaves the budget
    equal to the cycle count it started with and the return value 1, so the
    loop condition is false afterwards and the loop exits with that
    iteration as its last; nothing is skipped: apart from the error message
    the iteration makes the calls of an iteration without failure (memory
    ticks of every channel, host exchange, tracker observation, trace dump,
    [clock_hi]) and leaves the same tracker, counter and host buffer; and
    every run from the initial state in which an evaluation failed returns
    1 from [main] when the transport status is zero (the budget being a
    [uint64_t], below 2^64). *)
Theorem eval_failure_finishes_iteration (cfg : Config) (inp : CycleIn)
    (s : State) (t1 : MagicTracker) :
  clock_lo_throws inp = true ->
  nextInst (getInst inp) (tracker s) = Ok t1 ->
  exists s' rest,
    cycle cfg inp s =
      Ok (s', drive_memory cfg ++ [ClockLo; ErrorMessage] ++ rest) /\
    max_cycles s' = trace_count s /\ ret s' = 1 /\
    (forall inp', loop_cond inp' s' = false) /\
    (forall env fuel n tr,
       env n = inp -> loop_cond inp s = true ->
       loop cfg env (S fuel) n s tr =
       Ok (Some (mkExit (S n) s'
                   (tr ++ drive_memory cfg ++ [ClockLo; ErrorMessage] ++ rest)))) /\
    (exists s0,
       cycle cfg (without_throw inp) s =
         Ok (s0, drive_memory cfg ++ [ClockLo] ++ rest) /\
       tracker s' = tracker s0 /\ trace_count s' = trace_count s0 /\
       htif_in_valid s' = htif_in_valid s0 /\
       htif_in_bits s' = htif_in_bits s0) /\
    (exists mid, rest = tick_memory cfg ++ mid ++ [ClockHi]) /\
    (forall env fuel o,
       0 <= max_cycles_arg cfg < 2 ^ 64 ->
       main cfg env 0 fuel = Ok (Some o) ->
       In ErrorMessage (trace (at_exit o)) ->
       status o = 1).
Proof.
  intros Hthrow Hn.
  assert (Hn0 : nextInst (getInst (without_throw inp)) (tracker s) = Ok t1)
    by exact Hn.
  rewrite (cycle_explicit cfg inp s t1 Hn),
          (cycle_explicit cfg (without_throw inp) s t1 Hn0).
  rewrite Hthrow. destruct (without_throw_fields inp) as [_ ->].
  cbn [clock_lo_throws without_throw].
  eexists _, _. split; [reflexivity|].
  cbn [max_cycles ret trace_count tracker htif_in_valid htif_in_bits].
  split; [reflexivity|]. split; [reflexivity|].
  assert (Hcond : forall inp' m c t v b,
             loop_cond inp' (mkState m c 1 t v b) = false).
  { intros. unfold loop_cond. simpl. now rewrite andb_false_r. }
  split; [intros; apply Hcond|].
  split.
  { intros env fuel n tr <- Hlc.
    erewrite loop_step; [|exact Hlc|].
    - rewrite loop_exit by apply Hcond. reflexivity.
    - rewrite (cycle_explicit cfg (env n) s t1 Hn), Hthrow. reflexivity. }
  split; [eexists; repeat split; reflexivity|].
  split.
  { eexists. f_equal. apply app_four_last. }
  intros env fuel o Hb Hm Hin.
  exact (failed_run_returns_1 cfg env fuel o Hb Hm Hin).
Qed.

Lemma eval_failure_finishes_iteration_witness :
  clock_lo_throws failing_cycle = true /\
  (exists s' rest,
     cycle (sample_cfg 100) failing_cycle (initial (sample_cfg 100)) =
       Ok (s', drive_memory (sample_cfg 100) ++ [ClockLo; ErrorMessage] ++ rest) /\
     max_cycles s' = 0 /\ ret s' = 1) /\
  (exists o,
     main (sample_cfg 100) (fun _ => failing_cycle) 0 5 = Ok (Some o) /\
     iterations (at_exit o) = 1%nat /\ status o = 1).
Proof.
  split; [reflexivity|].
  destruct (eval_failure_finishes_iteration (sample_cfg 100) failing_cycle
              (initial (sample_cfg 100))
              (mkTracker (CB.mk MAGIC_LEN [nop]) false false)
              eq_refl eq_refl)
    as (s' & rest & Hc & Hm & Hr & _ & _ & _ & _ & Hrun).
  split; [exists s', rest; split; [exact Hc|]; split; [exact Hm | exact Hr]|].
  let r := eval vm_compute in
    (main (sample_cfg 100) (fun _ => failing_cycle) 0 5) in
  match r with
  | Ok (Some ?o) =>
      assert (E : main (sample_cfg 100) (fun _ => failing_cycle) 0 5
                  = Ok (Some o)) by (vm_compute; reflexivity);
      exists o; split; [exact E|]; split; [reflexivity|];
      apply (Hrun (fun _ => failing_cycle) 5%nat o);
        [vm_compute; split; [discriminate | reflexivity] | exact E |]
  end.
  vm_compute. tauto.
Defined.

(** C1 as stated fails: in the first iteration of a run with one memory
    channel and tracing on, [clock_lo] throws, and the iteration still
    ticks the memory backend, receives and presents a frame, sends one,
    lets the tracker observe the instruction, dumps cycle 0 and calls
    [clock_hi]. *)
Lemma eval_failure_steps_not_suppressed :
  clock_lo_throws failing_cycle = true /\
  exists s' ev,
    cycle (sample_cfg 100) failing_cycle (initial (sample_cfg 100))
    = Ok (s', ev) /\
    ev = [MemDrive 0; ClockLo; ErrorMessage; MemTick 0; Recv;
          HostIn true 5; Send 7; HostOutReady; Dump 0; ClockHi] /\
    filter after_eval ev
    = [MemTick 0; Recv; HostIn true 5; Send 7; HostOutReady; Dump 0;
       ClockHi] /\
    tracker s' = mkTracker (CB.mk MAGIC_LEN [nop]) false false /\
    tracker s' <> tracker (initial (sample_cfg 100)).
Proof.
  split; [reflexivity|]. eexists _, _. split; [vm_compute; reflexivity|].
  split; [reflexivity|]. split; [reflexivity|].
  split; [reflexivity | discriminate].
Qed.

(** * Runs that do not return *)





